(** * Magic constants for division by a constant (cmd/compile/internal/ssa/magic.go)

    A shallow embedding of [umagicOK], [umagic], [smagicOK], [smagic],
    [udivisibleOK] and [udivisible], together with the Go primitives they
    use (64-bit machine arithmetic, [math/big] and [math/bits]), followed by
    the properties of the computed constants. *)

From Stdlib Require Import ZArith Lia Bool String Znumtheory.

Local Open Scope Z_scope.

(** ** Panics

    A Go function either returns a value or panics with a message. *)

Inductive outcome (A : Type) : Type :=
| Return (a : A)
| Panic (msg : string).

Arguments Return {A} a.
Arguments Panic {A} msg.

Definition bind {A B : Type} (o : outcome A) (f : A -> outcome B) : outcome B :=
  match o with
  | Return a => f a
  | Panic msg => Panic msg
  end.

Notation "x <- o ;; k" := (bind o (fun x => k))
  (at level 61, o at next level, right associativity).

(** ** Machine integers

    [uint64], [int64] and [uint] (64 bits wide on the targets considered)
    are integers of [Z] with the wrap-around written out. *)

Module U64.

Definition modulus : Z := 2 ^ 64.

(** Conversion [uint64(c)] (also [uint(s)]) of a signed value. *)
Definition of_int (c : Z) : Z := c mod modulus.

(** Conversion [int(n)] of an unsigned value. *)
Definition to_int (u : Z) : Z := if u <? 2 ^ 63 then u else u - modulus.

Definition add (a b : Z) : Z := (a + b) mod modulus.
Definition sub (a b : Z) : Z := (a - b) mod modulus.
Definition mul (a b : Z) : Z := (a * b) mod modulus.

(** Go shifts: a count of 64 or more gives 0. *)
Definition shl (a k : Z) : Z :=
  if 64 <=? k then 0 else (Z.shiftl a k) mod modulus.
Definition shr (a k : Z) : Z :=
  if 64 <=? k then 0 else Z.shiftr a k.

(** [^uint64(0)] *)
Definition all_ones : Z := modulus - 1.

(** Unsigned division; dividing by zero is a run-time panic. *)
Definition div (a b : Z) : outcome Z :=
  if b =? 0 then Panic "integer divide by zero" else Return (a / b).

End U64.

(** ** math/bits

    Modelled from the spec: the package [math/bits] is not among the sources
    read here; [TrailingZeros64] is the "count of trailing zero bits", with
    the library's documented value 64 for the argument 0. *)

Module bits.

Fixpoint pos_tz (p : positive) : Z :=
  match p with
  | xO q => 1 + pos_tz q
  | _ => 0
  end.

(** [bits.TrailingZeros64]: the number of trailing zero bits; 64 for 0. *)
Definition TrailingZeros64 (x : Z) : Z :=
  match x with
  | Zpos p => pos_tz p
  | _ => 64
  end.

End bits.

(** ** math/big

    Modelled from the spec: the package [math/big] is not among the sources
    read here; it is the "arbitrary-precision integer arithmetic" the
    computations rely on. A [big.Int] is an integer of [Z], and each method
    used by magic.go has its documented meaning. *)

Module big.

(** [x.BitLen()]: the length of the absolute value in bits; 0 for 0. *)
Definition BitLen (x : Z) : Z :=
  if x =? 0 then 0 else Z.log2 (Z.abs x) + 1.

Definition Lsh (x k : Z) : Z := Z.shiftl x k.

(** [z.Div(x, y)]: Euclidean division; panics for [y = 0]. *)
Definition Div (x y : Z) : outcome Z :=
  if y =? 0 then Panic "division by zero"
  else Return (Z.sgn y * (x / Z.abs y)).

(** [x.Bit(i)]: bit [i] in two's complement; panics for a negative [i]. *)
Definition Bit (x i : Z) : outcome Z :=
  if i <? 0 then Panic "negative bit index"
  else Return (if Z.testbit x i then 1 else 0).

(** [z.SetBit(x, i, 0)] *)
Definition ClearBit (x i : Z) : outcome Z :=
  if i <? 0 then Panic "negative bit index"
  else Return (Z.clearbit x i).

(** [x.Uint64()]: the low 64 bits of the absolute value. *)
Definition Uint64 (x : Z) : Z := Z.abs x mod U64.modulus.

End big.

(** ** magic.go *)

(** The conversion "from ConstX auxint values to the real uint64 constant
    they represent": [uint64(c) << (64 - n) >> (64 - n)]. *)
Definition auxint_to_uint64 (n c : Z) : Z :=
  U64.shr (U64.shl (U64.of_int c) (U64.sub 64 n)) (U64.sub 64 n).

Definition umagicOK (n c : Z) : bool :=
  let d := auxint_to_uint64 n c in
  negb (Z.land d (U64.sub d 1) =? 0).

Module umagicData.
Record t : Type := mk { s : Z; m : Z }.
End umagicData.

Definition umagic (n c : Z) : outcome umagicData.t :=
  let d := auxint_to_uint64 n c in
  let C := d in
  let s := big.BitLen C in
  let M := 1 in
  let M := big.Lsh M (U64.add n (U64.of_int s)) in
  let M := M + C in
  let M := M - 1 in
  M <- big.Div M C ;;
  b <- big.Bit M (U64.to_int n) ;;
  if negb (b =? 1) then Panic "n+1st bit isn't set"
  else
    M <- big.ClearBit M (U64.to_int n) ;;
    let m := big.Uint64 M in
    Return (umagicData.mk s m).

Definition smagicOK (n c : Z) : bool :=
  if c <? 0 then false
  else negb (Z.land c (c - 1) =? 0).

Module smagicData.
Record t : Type := mk { s : Z; m : Z }.
End smagicData.

Definition smagic (n c : Z) : outcome smagicData.t :=
  let C := c in
  let s := big.BitLen C - 1 in
  let M := 1 in
  let M := big.Lsh M (U64.add n (U64.of_int s)) in
  let M := M + C in
  let M := M - 1 in
  M <- big.Div M C ;;
  b <- big.Bit M (U64.to_int n) ;;
  if negb (b =? 0) then Panic "n+1st bit is set"
  else
    b <- big.Bit M (U64.to_int (U64.sub n 1)) ;;
    if b =? 0 then Panic "nth bit is not set"
    else
      let m := big.Uint64 M in
      Return (smagicData.mk s m).

Definition udivisibleOK (n c : Z) : bool :=
  let d := auxint_to_uint64 n c in
  negb (Z.land d (U64.sub d 1) =? 0).

Module udivisibleData.
Record t : Type := mk { k : Z; m : Z; max : Z }.
End udivisibleData.

Definition udivisible (n c : Z) : outcome udivisibleData.t :=
  let d := auxint_to_uint64 n c in
  let k := bits.TrailingZeros64 d in
  let d0 := U64.shr d (U64.of_int k) in
  let mask := U64.shr U64.all_ones (U64.sub 64 n) in
  let m := d0 in
  let m := U64.mul m (U64.sub 2 (U64.mul m d0)) in
  let m := U64.mul m (U64.sub 2 (U64.mul m d0)) in
  let m := U64.mul m (U64.sub 2 (U64.mul m d0)) in
  let m := U64.mul m (U64.sub 2 (U64.mul m d0)) in
  let m := U64.mul m (U64.sub 2 (U64.mul m d0)) in
  let m := Z.land m mask in
  max <- U64.div mask d ;;
  Return (udivisibleData.mk k m max).

(** ** Vocabulary of the properties *)

(** The operand widths of the rewrite rules that call these functions. *)
Definition supported (n : Z) : Prop := n = 8 \/ n = 16 \/ n = 32 \/ n = 64.

(** The n-bit unsigned value a constant stands for. *)
Definition residue (n c : Z) : Z := c mod 2 ^ n.

Definition power_of_two (c : Z) : Prop := exists e, 0 <= e /\ c = 2 ^ e.

(** One Newton step for the inverse of [d0], in wrap-around 64-bit
    arithmetic: [m * (2 - m*d0)]. *)
Definition newton_step (d0 m : Z) : Z :=
  U64.mul m (U64.sub 2 (U64.mul m d0)).

(** Modelled from the spec: the rewrite rules that consume [udivisible] are
    not part of magic.go; [RotateRight] is the "circular right shift of an
    n-bit value by k bit positions" they apply to the product. *)
Definition RotateRight (n x k : Z) : Z :=
  Z.lor (Z.shiftr x k) ((Z.shiftl x (n - k)) mod 2 ^ n).

Example umagic_8_3 : umagic 8 3 = Return (umagicData.mk 2 86).
Proof. vm_compute. reflexivity. Qed.

Example smagic_8_3 : smagic 8 3 = Return (smagicData.mk 1 171).
Proof. vm_compute. reflexivity. Qed.

Example udivisible_8_6 : udivisible 8 6 = Return (udivisibleData.mk 1 171 42).
Proof. vm_compute. reflexivity. Qed.

Example smagic_8_257 : smagic 8 257 = Panic "n+1st bit is set".
Proof. vm_compute. reflexivity. Qed.

Example smagic_8_300 : smagic 8 300 = Return (smagicData.mk 8 219).
Proof. vm_compute. reflexivity. Qed.

(** ** The n-bit residue *)

Section Residue.

Variable n : Z.
Hypothesis Hn : 0 <= n <= 64.

Lemma width_gap : U64.sub 64 n = 64 - n.
Proof. unfold U64.sub, U64.modulus. apply Z.mod_small. lia. Qed.

Lemma modulus_split : U64.modulus = 2 ^ n * 2 ^ (64 - n).
Proof.
  unfold U64.modulus. rewrite <- Z.pow_add_r by lia.
  f_equal. lia.
Qed.

Lemma auxint_to_uint64_residue (c : Z) : auxint_to_uint64 n c = residue n c.
Proof.
  unfold auxint_to_uint64, residue. rewrite width_gap.
  unfold U64.shl, U64.shr, U64.of_int.
  destruct (Z.leb_spec 64 (64 - n)) as [Hz | Hp].
  - assert (n = 0) by lia. subst n. now rewrite Z.pow_0_r, Z.mod_1_r.
  - assert (H2n : 0 < 2 ^ n) by (apply Z.pow_pos_nonneg; lia).
    assert (H2k : 0 < 2 ^ (64 - n)) by (apply Z.pow_pos_nonneg; lia).
    rewrite Z.shiftl_mul_pow2, Z.shiftr_div_pow2 by lia.
    rewrite modulus_split at 2.
    rewrite Z.mul_mod_distr_r by lia.
    rewrite Z.div_mul by lia.
    apply Z.mod_mod_divide.
    exists (2 ^ (64 - n)). rewrite modulus_split. lia.
Qed.

Lemma residue_range (c : Z) : 0 <= residue n c < 2 ^ n.
Proof. unfold residue. apply Z.mod_pos_bound. apply Z.pow_pos_nonneg; lia. Qed.

Lemma pow_width_le : 2 ^ n <= U64.modulus.
Proof. unfold U64.modulus. apply Z.pow_le_mono_r; lia. Qed.

End Residue.

Lemma supported_range (n : Z) : supported n -> 0 < n <= 64.
Proof. unfold supported. lia. Qed.

(** ** The power-of-two test [d & (d-1)] *)

Lemma land_pred_pow2 (e : Z) : 0 <= e -> Z.land (2 ^ e) (2 ^ e - 1) = 0.
Proof.
  intros He. replace (2 ^ e - 1) with (Z.ones e) by (rewrite Z.ones_equiv; lia).
  rewrite Z.land_ones by lia. apply Z.mod_same.
  apply Z.pow_nonzero; lia.
Qed.

Lemma land_pred_between (d : Z) :
  2 ^ Z.log2 d < d -> Z.land d (d - 1) <> 0.
Proof.
  intros Hlt Hz.
  assert (Hd : 0 < d).
  { pose proof (Z.pow_nonneg 2 (Z.log2 d)). lia. }
  pose proof (Z.log2_nonneg d) as Hl.
  destruct (Z.log2_spec d Hd) as [_ Hhi].
  assert (Hlog : Z.log2 (d - 1) = Z.log2 d).
  { apply Z.log2_unique; [assumption | lia]. }
  assert (Hb : Z.testbit (Z.land d (d - 1)) (Z.log2 d) = true).
  { rewrite Z.land_spec, Z.bit_log2 by lia.
    rewrite <- Hlog. rewrite Z.bit_log2 by lia. reflexivity. }
  rewrite Hz, Z.bits_0 in Hb. discriminate.
Qed.

Lemma land_pred_zero_iff (d : Z) :
  0 < d -> (Z.land d (d - 1) = 0 <-> power_of_two d).
Proof.
  intros Hd. split.
  - intros Hz. exists (Z.log2 d). split; [apply Z.log2_nonneg |].
    destruct (Z.log2_spec d Hd) as [Hlo _].
    destruct (Z.eq_dec d (2 ^ Z.log2 d)) as [-> | Hne]; [now rewrite Z.log2_pow2 by apply Z.log2_nonneg |].
    exfalso. apply (land_pred_between d); [lia | assumption].
  - intros (e & He & ->). now apply land_pred_pow2.
Qed.

Lemma not_power_of_two_between (d : Z) :
  0 < d -> ~ power_of_two d -> 2 ^ Z.log2 d < d < 2 ^ (Z.log2 d + 1).
Proof.
  intros Hd Hnp. destruct (Z.log2_spec d Hd) as [Hlo Hhi].
  replace (Z.succ (Z.log2 d)) with (Z.log2 d + 1) in Hhi by lia.
  split; [| assumption].
  destruct (Z.eq_dec d (2 ^ Z.log2 d)) as [He | Hne]; [| lia].
  exfalso. apply Hnp. exists (Z.log2 d). split; [apply Z.log2_nonneg | assumption].
Qed.

(** The unsigned test on a 64-bit value. *)
Lemma u64_test_zero_iff (d : Z) :
  0 <= d < U64.modulus ->
  (Z.land d (U64.sub d 1) = 0 <-> d = 0 \/ power_of_two d).
Proof.
  intros Hd. destruct (Z.eq_dec d 0) as [-> | Hnz].
  - rewrite Z.land_0_l. tauto.
  - unfold U64.sub. rewrite Z.mod_small by lia.
    rewrite land_pred_zero_iff by lia. intuition lia.
Qed.

Lemma umagicOK_spec (n c : Z) :
  0 <= n <= 64 ->
  (umagicOK n c = false <-> residue n c = 0 \/ power_of_two (residue n c)).
Proof.
  intros Hn. unfold umagicOK. cbv zeta.
  rewrite auxint_to_uint64_residue by assumption.
  rewrite negb_false_iff, Z.eqb_eq.
  apply u64_test_zero_iff.
  pose proof (residue_range n Hn c). pose proof (pow_width_le n Hn). lia.
Qed.

Lemma udivisibleOK_umagicOK (n c : Z) : udivisibleOK n c = umagicOK n c.
Proof. reflexivity. Qed.

Lemma smagicOK_spec (n c : Z) :
  smagicOK n c = false <-> c < 0 \/ c = 0 \/ power_of_two c.
Proof.
  unfold smagicOK. destruct (Z.ltb_spec c 0) as [Hneg | Hpos].
  - intuition.
  - rewrite negb_false_iff, Z.eqb_eq.
    destruct (Z.eq_dec c 0) as [-> | Hnz].
    + rewrite Z.land_0_l. intuition.
    + rewrite land_pred_zero_iff by lia. intuition lia.
Qed.

(** ** Ceiling division and multiply-and-shift *)

Lemma ceil_div_excess (P d : Z) :
  0 < d -> exists e, 0 <= e < d /\ ((P + d - 1) / d) * d = P + e.
Proof.
  intros Hd. exists (d - 1 - (P + d - 1) mod d).
  pose proof (Z.mod_pos_bound (P + d - 1) d Hd) as Hr.
  pose proof (Z.div_mod (P + d - 1) d ltac:(lia)) as Hdm.
  split; lia.
Qed.

(** Multiplying by an over-estimate [M] of [N/d] and dividing by [N] is the
    floor division by [d] as long as the excess times [x] stays below [N]. *)
Lemma mul_div_floor (x d M N e : Z) :
  0 < d -> 0 < N -> 0 <= x -> 0 <= e ->
  M * d = N + e -> e * x < N ->
  (x * M) / N = x / d.
Proof.
  intros Hd HN Hx He HM Hex.
  pose proof (Z.div_mod x d ltac:(lia)) as Hdm.
  pose proof (Z.mod_pos_bound x d Hd) as Hr.
  set (q := x / d) in *. set (r := x mod d) in *.
  symmetry. apply (Z.div_unique_pos (x * M) N q (x * M - N * q)); [| lia].
  assert (Hk : (x * M - N * q) * d = N * r + e * x).
  { replace ((x * M - N * q) * d) with (x * (M * d) - N * (q * d)) by ring.
    rewrite HM. replace (q * d) with (x - r) by lia. ring. }
  split.
  - assert (0 <= (x * M - N * q) * d) by nia. nia.
  - assert ((x * M - N * q) * d < N * d) by nia. nia.
Qed.

(** The same for a negative operand [- y]: the floor is one below the
    truncated quotient. *)
Lemma mul_div_floor_neg (y c M N e : Z) :
  0 < c -> 0 < N -> 0 < y -> 0 < e ->
  M * c = N + e -> e * y < N ->
  (- y * M) / N + 1 = - (y / c).
Proof.
  intros Hc HN Hy He HM Hey.
  pose proof (Z.div_mod y c ltac:(lia)) as Hdm.
  pose proof (Z.mod_pos_bound y c Hc) as Hr.
  set (q := y / c) in *. set (r := y mod c) in *.
  assert (Hq : (- y * M) / N = - q - 1); [| lia].
  symmetry.
  apply (Z.div_unique_pos (- y * M) N (- q - 1) (N * (q + 1) - y * M)); [| lia].
  assert (Hk : (N * (q + 1) - y * M) * c = N * (c - r) - e * y).
  { replace ((N * (q + 1) - y * M) * c)
      with (N * (q * c) + N * c - y * (M * c)) by ring.
    rewrite HM. replace (q * c) with (y - r) by lia. ring. }
  split.
  - assert (0 <= (N * (q + 1) - y * M) * c) by nia. nia.
  - assert ((N * (q + 1) - y * M) * c < N * c) by nia. nia.
Qed.

(** A positive divisor of a power of two is a power of two. *)
Lemma divisor_of_pow2 (e : Z) :
  0 <= e -> forall c, 0 < c -> (c | 2 ^ e) -> power_of_two c.
Proof.
  intros He. pattern e. apply natlike_ind; [| | assumption].
  - intros c Hc Hdiv. exists 0. split; [lia |].
    rewrite Z.pow_0_r in *. apply Z.divide_1_r_nonneg in Hdiv; lia.
  - intros k Hk IH c Hc Hdiv. rewrite Z.pow_succ_r in Hdiv by assumption.
    destruct (Z.even c) eqn:Hev.
    + apply Z.even_spec in Hev. destruct Hev as [c' ->].
      destruct (IH c') as (j & Hj & ->); [lia | |].
      * apply (Z.mul_divide_cancel_l _ _ 2); [lia | assumption].
      * exists (Z.succ j). split; [lia |]. now rewrite Z.pow_succ_r.
    + apply IH; [assumption |].
      apply Z.gauss with (m := 2); [assumption |].
      rewrite <- Z.negb_odd in Hev. apply negb_false_iff in Hev.
      apply Z.odd_spec in Hev. destruct Hev as [h ->].
      apply Z.bezout_1_gcd. exists 1, (- h). ring.
Qed.

(** ** Bits of the multiplier *)

Lemma testbit_top (M n : Z) :
  0 <= n -> 2 ^ n <= M < 2 ^ (n + 1) -> Z.testbit M n = true.
Proof.
  intros Hn HM. apply Z.testbit_true; [assumption |].
  assert (H2 : 0 < 2 ^ n) by (apply Z.pow_pos_nonneg; lia).
  replace (M / 2 ^ n) with 1; [reflexivity |].
  apply (Z.div_unique_pos M (2 ^ n) 1 (M - 2 ^ n)); [| lia].
  rewrite Z.pow_add_r, Z.pow_1_r in HM by lia. lia.
Qed.

Lemma testbit_above (M n : Z) :
  0 <= n -> 0 <= M < 2 ^ n -> Z.testbit M n = false.
Proof.
  intros Hn HM. apply Z.testbit_false; [assumption |].
  rewrite Z.div_small by lia. reflexivity.
Qed.

Lemma clearbit_top (M n : Z) :
  0 <= n -> 2 ^ n <= M < 2 ^ (n + 1) -> Z.clearbit M n = M - 2 ^ n.
Proof.
  intros Hn HM. unfold Z.clearbit. rewrite Z.shiftl_1_l.
  symmetry. apply Z.sub_nocarry_ldiff.
  apply Z.bits_inj'. intros i Hi.
  rewrite Z.ldiff_spec, Z.bits_0, Z.pow2_bits_eqb by assumption.
  destruct (Z.eqb_spec n i) as [<- | Hne]; [| reflexivity].
  now rewrite (testbit_top M n).
Qed.

(** ** Unsigned division: [umagic] *)

Section Umagic.

Variables n c : Z.
Hypothesis Hn : 0 < n <= 64.
Hypothesis Hok : umagicOK n c = true.

Let d := residue n c.
Let s := Z.log2 d + 1.
Let M := (2 ^ (n + s) + d - 1) / d.

Lemma umagic_divisor_shape : 0 < d < 2 ^ n /\ ~ power_of_two d.
Proof.
  pose proof (residue_range n ltac:(lia) c) as Hr. fold d in Hr.
  pose proof (umagicOK_spec n c ltac:(lia)) as Hspec. fold d in Hspec.
  assert (Hno : ~ (d = 0 \/ power_of_two d)).
  { intros H. apply Hspec in H. congruence. }
  split; [| tauto]. assert (d <> 0) by tauto. lia.
Qed.

Lemma umagic_shift_bounds : 1 <= s <= n /\ 2 ^ (s - 1) < d < 2 ^ s.
Proof.
  destruct umagic_divisor_shape as [Hd Hnp].
  pose proof (not_power_of_two_between d ltac:(lia) Hnp) as Hb.
  pose proof (Z.log2_nonneg d) as Hl.
  assert (Z.log2 d < n) by (apply Z.log2_lt_pow2; lia).
  unfold s. replace (Z.log2 d + 1 - 1) with (Z.log2 d) by lia. lia.
Qed.

Lemma umagic_bitlen : big.BitLen d = s.
Proof.
  destruct umagic_divisor_shape as [Hd _]. unfold big.BitLen, s.
  destruct (Z.eqb_spec d 0); [lia |]. rewrite Z.abs_eq by lia. reflexivity.
Qed.

(** [s] is the ceiling of the binary logarithm of the divisor. *)
Lemma umagic_shift_log2_up : s = Z.log2_up d.
Proof.
  destruct umagic_shift_bounds as [Hs Hb]. symmetry.
  apply Z.log2_up_unique; [lia |].
  replace (Z.pred s) with (s - 1) by lia. lia.
Qed.

Lemma umagic_multiplier_range : 2 ^ n <= M < 2 ^ (n + 1).
Proof.
  destruct umagic_shift_bounds as [Hs Hb].
  destruct umagic_divisor_shape as [Hd _].
  destruct (ceil_div_excess (2 ^ (n + s)) d ltac:(lia)) as (e & He & HM).
  fold M in HM.
  assert (Hp : 2 ^ (n + s) = 2 ^ n * 2 ^ s) by (apply Z.pow_add_r; lia).
  assert (Hs2 : 2 ^ s = 2 * 2 ^ (s - 1)).
  { replace s with (Z.succ (s - 1)) at 1 by lia. apply Z.pow_succ_r. lia. }
  assert (Hn2 : 2 ^ (n + 1) = 2 * 2 ^ n).
  { rewrite Z.pow_add_r, Z.pow_1_r by lia. ring. }
  assert (Hle : 2 ^ (s - 1) <= 2 ^ n) by (apply Z.pow_le_mono_r; lia).
  assert (0 < 2 ^ n) by (apply Z.pow_pos_nonneg; lia).
  assert (0 < 2 ^ (s - 1)) by (apply Z.pow_pos_nonneg; lia).
  split.
  - assert (2 ^ n * d < M * d) by nia. nia.
  - assert (M * d < 2 ^ (n + 1) * d) by nia. nia.
Qed.

Lemma umagic_computes :
  umagic n c = Return (umagicData.mk s (M - 2 ^ n)).
Proof.
  destruct umagic_shift_bounds as [Hs Hb].
  destruct umagic_divisor_shape as [Hd _].
  pose proof umagic_multiplier_range as HM.
  pose proof (pow_width_le n ltac:(lia)) as Hw.
  unfold umagic. cbv zeta.
  rewrite auxint_to_uint64_residue by lia. fold d.
  rewrite umagic_bitlen.
  assert (Hadd : U64.add n (U64.of_int s) = n + s).
  { unfold U64.add, U64.of_int, U64.modulus.
    rewrite (Z.mod_small s) by lia. apply Z.mod_small. lia. }
  rewrite Hadd. unfold big.Lsh. rewrite Z.shiftl_1_l.
  unfold big.Div. destruct (Z.eqb_spec d 0); [lia |].
  rewrite Z.sgn_pos, Z.abs_eq, Z.mul_1_l by lia. fold M.
  assert (Hint : U64.to_int n = n).
  { unfold U64.to_int. destruct (Z.ltb_spec n (2 ^ 63)); lia. }
  rewrite Hint. cbn [bind]. unfold big.Bit, big.ClearBit.
  destruct (Z.ltb_spec n 0); [lia |]. cbn [bind].
  rewrite (testbit_top M n) by lia. cbn [Z.eqb Pos.eqb negb bind].
  rewrite (clearbit_top M n) by lia.
  assert (Hn2 : 2 ^ (n + 1) = 2 * 2 ^ n).
  { rewrite Z.pow_add_r, Z.pow_1_r by lia. ring. }
  unfold big.Uint64. rewrite Z.abs_eq by lia.
  rewrite Z.mod_small by lia. reflexivity.
Qed.

Lemma umagic_divides (x : Z) :
  0 <= x < 2 ^ n ->
  x / d = Z.shiftr (x * (M - 2 ^ n + 2 ^ n)) (n + s).
Proof.
  intros Hx.
  destruct umagic_shift_bounds as [Hs Hb].
  destruct umagic_divisor_shape as [Hd _].
  destruct (ceil_div_excess (2 ^ (n + s)) d ltac:(lia)) as (e & He & HM).
  fold M in HM.
  replace (M - 2 ^ n + 2 ^ n) with M by ring.
  rewrite Z.shiftr_div_pow2 by lia. symmetry.
  assert (0 < 2 ^ s) by (apply Z.pow_pos_nonneg; lia).
  assert (0 < 2 ^ (n + s)) by (apply Z.pow_pos_nonneg; lia).
  apply (mul_div_floor x d M (2 ^ (n + s)) e); try lia.
  rewrite Z.pow_add_r by lia. nia.
Qed.

End Umagic.

(** ** Signed division: [smagic] *)

Section Smagic.

Variables n c : Z.
Hypothesis Hn : 0 < n <= 64.
Hypothesis Hok : smagicOK n c = true.
Hypothesis Hc : 0 < c < 2 ^ n.

Let s := Z.log2 c.
Let M := (2 ^ (n + s) + c - 1) / c.

Lemma smagic_divisor_shape : ~ power_of_two c.
Proof.
  intros Hp. assert (H : smagicOK n c = false); [| congruence].
  apply smagicOK_spec. tauto.
Qed.

Lemma smagic_shift_bounds : 0 <= s < n /\ 2 ^ s < c < 2 ^ (s + 1).
Proof.
  pose proof (not_power_of_two_between c ltac:(lia) smagic_divisor_shape) as Hb.
  pose proof (Z.log2_nonneg c) as Hl.
  assert (Z.log2 c < n) by (apply Z.log2_lt_pow2; lia).
  unfold s. lia.
Qed.

Lemma smagic_bitlen : big.BitLen c - 1 = s.
Proof.
  unfold big.BitLen, s.
  destruct (Z.eqb_spec c 0); [lia |]. rewrite Z.abs_eq by lia. lia.
Qed.

(** [s] is one less than the ceiling of the binary logarithm of [c]. *)
Lemma smagic_shift_log2_up : s = Z.log2_up c - 1.
Proof.
  destruct smagic_shift_bounds as [Hs Hb].
  assert (Z.log2_up c = s + 1); [| lia].
  apply Z.log2_up_unique; [lia |].
  replace (Z.pred (s + 1)) with s by lia. lia.
Qed.

Lemma smagic_excess :
  exists e, 0 < e < c /\ M * c = 2 ^ (n + s) + e.
Proof.
  destruct smagic_shift_bounds as [Hs Hb].
  destruct (ceil_div_excess (2 ^ (n + s)) c ltac:(lia)) as (e & He & HM).
  fold M in HM. exists e. split; [| assumption].
  destruct (Z.eq_dec e 0) as [-> | Hne]; [| lia].
  exfalso. apply smagic_divisor_shape.
  apply (divisor_of_pow2 (n + s)); [lia | lia |].
  exists M. lia.
Qed.

Lemma smagic_multiplier_range : 2 ^ (n - 1) <= M < 2 ^ n.
Proof.
  destruct smagic_shift_bounds as [Hs Hb].
  destruct smagic_excess as (e & He & HM).
  assert (Hp : 2 ^ (n + s) = 2 ^ n * 2 ^ s) by (apply Z.pow_add_r; lia).
  assert (Hs2 : 2 ^ (s + 1) = 2 * 2 ^ s).
  { rewrite Z.pow_add_r, Z.pow_1_r by lia. ring. }
  assert (Hn2 : 2 ^ n = 2 * 2 ^ (n - 1)).
  { replace n with (Z.succ (n - 1)) at 1 by lia. apply Z.pow_succ_r. lia. }
  assert (0 < 2 ^ (n - 1)) by (apply Z.pow_pos_nonneg; lia).
  assert (0 < 2 ^ s) by (apply Z.pow_pos_nonneg; lia).
  split.
  - assert (2 ^ (n - 1) * c < M * c) by nia. nia.
  - assert (M * c < 2 ^ n * c) by nia. nia.
Qed.

Lemma smagic_computes : smagic n c = Return (smagicData.mk s M).
Proof.
  destruct smagic_shift_bounds as [Hs Hb].
  pose proof smagic_multiplier_range as HM.
  pose proof (pow_width_le n ltac:(lia)) as Hw.
  assert (0 < 2 ^ (n - 1)) by (apply Z.pow_pos_nonneg; lia).
  unfold smagic. cbv zeta. rewrite smagic_bitlen.
  assert (Hadd : U64.add n (U64.of_int s) = n + s).
  { unfold U64.add, U64.of_int, U64.modulus.
    rewrite (Z.mod_small s) by lia. apply Z.mod_small. lia. }
  rewrite Hadd. unfold big.Lsh. rewrite Z.shiftl_1_l.
  unfold big.Div. destruct (Z.eqb_spec c 0); [lia |].
  rewrite Z.sgn_pos, Z.abs_eq, Z.mul_1_l by lia. fold M.
  assert (Hint : U64.to_int n = n).
  { unfold U64.to_int. destruct (Z.ltb_spec n (2 ^ 63)); lia. }
  assert (Hint1 : U64.to_int (U64.sub n 1) = n - 1).
  { unfold U64.sub, U64.modulus. rewrite Z.mod_small by lia.
    unfold U64.to_int. destruct (Z.ltb_spec (n - 1) (2 ^ 63)); lia. }
  rewrite Hint, Hint1. cbn [bind]. unfold big.Bit.
  destruct (Z.ltb_spec n 0); [lia |].
  destruct (Z.ltb_spec (n - 1) 0); [lia |]. cbn [bind].
  rewrite (testbit_above M n) by lia. cbn [Z.eqb negb bind].
  rewrite (testbit_top M (n - 1)) by (replace (n - 1 + 1) with n by lia; lia).
  cbn [Z.eqb].
  unfold big.Uint64. rewrite Z.abs_eq by lia.
  rewrite Z.mod_small by lia. reflexivity.
Qed.

Lemma smagic_divides (x : Z) :
  - 2 ^ (n - 1) <= x < 2 ^ (n - 1) ->
  Z.quot x c = Z.shiftr (x * M) (n + s) + (if x <? 0 then 1 else 0).
Proof.
  intros Hx.
  destruct smagic_shift_bounds as [Hs Hb].
  destruct smagic_excess as (e & He & HM).
  assert (Hp : 2 ^ (n + s) = 2 ^ (n - 1) * 2 ^ (s + 1)).
  { rewrite <- Z.pow_add_r by lia. f_equal. lia. }
  assert (0 < 2 ^ (n - 1)) by (apply Z.pow_pos_nonneg; lia).
  assert (0 < 2 ^ (s + 1)) by (apply Z.pow_pos_nonneg; lia).
  assert (0 < 2 ^ (n + s)) by (apply Z.pow_pos_nonneg; lia).
  rewrite Z.shiftr_div_pow2 by lia.
  destruct (Z.ltb_spec x 0) as [Hneg | Hpos].
  - replace x with (- (- x)) at 1 by lia.
    rewrite Z.quot_opp_l, Z.quot_div_nonneg by lia.
    replace (x * M) with (- (- x) * M) by ring. symmetry.
    apply (mul_div_floor_neg (- x) c M (2 ^ (n + s)) e); try lia.
    rewrite Hp. nia.
  - rewrite Z.quot_div_nonneg, Z.add_0_r by lia. symmetry.
    apply (mul_div_floor x c M (2 ^ (n + s)) e); try lia.
    rewrite Hp. nia.
Qed.

End Smagic.

(** ** Rotation *)

Section Rotate.

Variables n k : Z.
Hypothesis Hk : 0 <= k < n.

Lemma pow_width_split : 2 ^ n = 2 ^ (n - k) * 2 ^ k.
Proof. rewrite <- Z.pow_add_r by lia. f_equal. lia. Qed.

(** The rotation moves the low [k] bits to the top. *)
Lemma RotateRight_split (y : Z) :
  0 <= y < 2 ^ n ->
  RotateRight n y k = y / 2 ^ k + (y mod 2 ^ k) * 2 ^ (n - k).
Proof.
  intros Hy.
  assert (H2k : 0 < 2 ^ k) by (apply Z.pow_pos_nonneg; lia).
  assert (H2nk : 0 < 2 ^ (n - k)) by (apply Z.pow_pos_nonneg; lia).
  pose proof pow_width_split as Hsplit.
  pose proof (Z.div_mod y (2 ^ k) ltac:(lia)) as Hdm.
  pose proof (Z.mod_pos_bound y (2 ^ k) H2k) as Hl.
  set (h := y / 2 ^ k) in *. set (l := y mod 2 ^ k) in *.
  assert (Hh : 0 <= h < 2 ^ (n - k)).
  { split; [apply Z.div_pos; lia |].
    apply Z.div_lt_upper_bound; lia. }
  unfold RotateRight. rewrite Z.shiftr_div_pow2, Z.shiftl_mul_pow2 by lia.
  fold h.
  assert (Hhi : (y * 2 ^ (n - k)) mod 2 ^ n = l * 2 ^ (n - k)).
  { rewrite Hdm.
    replace ((2 ^ k * h + l) * 2 ^ (n - k))
      with (l * 2 ^ (n - k) + h * 2 ^ n) by (rewrite Hsplit; ring).
    rewrite Z.mod_add by lia. apply Z.mod_small. nia. }
  rewrite Hhi.
  pose proof (Z.add_lor_land h (l * 2 ^ (n - k))) as Hsum.
  assert (Hland : Z.land h (l * 2 ^ (n - k)) = 0); [| lia].
  apply Z.bits_inj'. intros i Hi.
  rewrite Z.land_spec, Z.bits_0, <- Z.shiftl_mul_pow2 by lia.
  destruct (Z.lt_ge_cases i (n - k)) as [Hlo | Hup].
  - rewrite (Z.shiftl_spec_low l) by assumption. apply andb_false_r.
  - assert (Z.testbit h i = false); [| now rewrite H].
    apply Z.testbit_false; [assumption |].
    rewrite Z.div_small; [reflexivity |].
    assert (2 ^ (n - k) <= 2 ^ i) by (apply Z.pow_le_mono_r; lia). lia.
Qed.

(** A value is at most [a] and ends in [k] zero bits exactly when its
    rotation is at most [a / 2^k]. *)
Lemma RotateRight_le (y a : Z) :
  0 <= y < 2 ^ n -> 0 <= a < 2 ^ n ->
  (y <= a /\ (2 ^ k | y) <-> RotateRight n y k <= a / 2 ^ k).
Proof.
  intros Hy Ha.
  assert (H2k : 0 < 2 ^ k) by (apply Z.pow_pos_nonneg; lia).
  assert (H2nk : 0 < 2 ^ (n - k)) by (apply Z.pow_pos_nonneg; lia).
  pose proof pow_width_split as Hsplit.
  rewrite RotateRight_split by assumption.
  pose proof (Z.div_mod y (2 ^ k) ltac:(lia)) as Hdm.
  pose proof (Z.mod_pos_bound y (2 ^ k) H2k) as Hl.
  pose proof (Z.div_mod a (2 ^ k) ltac:(lia)) as Hdma.
  pose proof (Z.mod_pos_bound a (2 ^ k) H2k) as Hla.
  assert (Hq : 0 <= a / 2 ^ k < 2 ^ (n - k)).
  { split; [apply Z.div_pos; lia |]. apply Z.div_lt_upper_bound; lia. }
  assert (Hh : 0 <= y / 2 ^ k) by (apply Z.div_pos; lia).
  split.
  - intros [Hle Hdiv]. apply Z.mod_divide in Hdiv; [| lia].
    rewrite Hdiv, Z.mul_0_l, Z.add_0_r. apply Z.div_le_mono; lia.
  - intros Hrot.
    assert (Hz : y mod 2 ^ k = 0) by nia.
    split; [| apply Z.mod_divide; lia]. nia.
Qed.

End Rotate.

(** ** Trailing zeros *)

Lemma pos_tz_spec (p : positive) :
  0 <= bits.pos_tz p /\
  exists q, Z.pos p = Z.pos q * 2 ^ bits.pos_tz p /\ Z.odd (Z.pos q) = true.
Proof.
  induction p as [p _ | p [IH0 (q & IHq & IHo)] |].
  - split; [cbn; lia |]. exists (xI p). cbn [bits.pos_tz].
    rewrite Z.pow_0_r, Z.mul_1_r. split; reflexivity.
  - cbn [bits.pos_tz]. split; [lia |]. exists q. split; [| assumption].
    rewrite Z.pow_add_r, Z.pow_1_r by lia.
    rewrite Pos2Z.inj_xO, IHq. ring.
  - split; [cbn; lia |]. exists xH. split; reflexivity.
Qed.

Lemma TrailingZeros64_spec (d : Z) :
  0 < d < U64.modulus ->
  let k := bits.TrailingZeros64 d in
  0 <= k < 64 /\ d = (d / 2 ^ k) * 2 ^ k /\ Z.odd (d / 2 ^ k) = true.
Proof.
  intros Hd. destruct d as [| p | p]; try lia. cbn [bits.TrailingZeros64].
  destruct (pos_tz_spec p) as (Hk & q & Hq & Hodd).
  assert (H2k : 0 < 2 ^ bits.pos_tz p) by (apply Z.pow_pos_nonneg; lia).
  assert (Hdiv : Z.pos p / 2 ^ bits.pos_tz p = Z.pos q).
  { rewrite Hq. apply Z.div_mul. lia. }
  cbv zeta. rewrite Hdiv. repeat split; try assumption; try lia.
  apply (Z.pow_lt_mono_r_iff 2); [lia | lia |].
  unfold U64.modulus in Hd. nia.
Qed.

(** ** Newton's iteration for the inverse modulo a power of two *)

Lemma wrap_congruent (a : Z) : exists t, a mod U64.modulus = a + t * U64.modulus.
Proof.
  exists (- (a / U64.modulus)). rewrite Z.mod_eq by (unfold U64.modulus; lia). ring.
Qed.

Lemma newton_step_congruent (d0 m : Z) :
  exists t, newton_step d0 m = m * (2 - m * d0) + t * U64.modulus.
Proof.
  unfold newton_step, U64.mul, U64.sub.
  destruct (wrap_congruent (m * d0)) as (t3 & ->).
  destruct (wrap_congruent (2 - (m * d0 + t3 * U64.modulus))) as (t2 & ->).
  destruct (wrap_congruent
              (m * (2 - (m * d0 + t3 * U64.modulus) + t2 * U64.modulus)))
    as (t1 & ->).
  exists (m * (t2 - t3) + t1). ring.
Qed.

(** An odd number is its own inverse modulo 8. *)
Lemma odd_square_mod8 (d0 : Z) : Z.odd d0 = true -> (2 ^ 3 | d0 * d0 - 1).
Proof.
  intros Hodd. apply Z.odd_spec in Hodd. destruct Hodd as [h ->].
  destruct (Z.Even_or_Odd h) as [[g ->] | [g ->]].
  - exists (g * (2 * g + 1)). change (2 ^ 3) with 8. ring.
  - exists ((2 * g + 1) * (g + 1)). change (2 ^ 3) with 8. ring.
Qed.

(** Each step doubles the number of correct low bits, up to 64. *)
Lemma newton_step_doubles (d0 m j j' : Z) :
  0 <= j -> 0 <= j' <= 2 * j -> j' <= 64 ->
  (2 ^ j | m * d0 - 1) -> (2 ^ j' | newton_step d0 m * d0 - 1).
Proof.
  intros Hj Hj' H64 [u Hu].
  destruct (newton_step_congruent d0 m) as (t & ->).
  replace ((m * (2 - m * d0) + t * U64.modulus) * d0 - 1)
    with (- ((m * d0 - 1) * (m * d0 - 1)) + t * d0 * U64.modulus) by ring.
  rewrite Hu. apply Z.divide_add_r.
  - apply Z.divide_opp_r.
    exists (u * u * 2 ^ (2 * j - j')).
    replace (u * u * 2 ^ (2 * j - j') * 2 ^ j')
      with (u * u * (2 ^ (2 * j - j') * 2 ^ j')) by ring.
    rewrite <- Z.pow_add_r by lia.
    replace (2 * j - j' + j') with (j + j) by lia.
    rewrite Z.pow_add_r by lia. ring.
  - apply Z.divide_mul_r. exists (2 ^ (64 - j')).
    unfold U64.modulus. rewrite <- Z.pow_add_r by lia. f_equal. lia.
Qed.

Lemma newton_five_steps (d0 : Z) :
  Z.odd d0 = true ->
  (U64.modulus | Nat.iter 5 (newton_step d0) d0 * d0 - 1).
Proof.
  intros Hodd. cbn [Nat.iter nat_rect].
  apply (newton_step_doubles d0 _ 48 64); try lia.
  apply (newton_step_doubles d0 _ 24 48); try lia.
  apply (newton_step_doubles d0 _ 12 24); try lia.
  apply (newton_step_doubles d0 _ 6 12); try lia.
  apply (newton_step_doubles d0 _ 3 6); try lia.
  now apply odd_square_mod8.
Qed.

(** ** Divisibility by an odd number times a power of two *)

Section Divisible.

Variables n k d0 m : Z.
Hypothesis Hk : 0 <= k < n.
Hypothesis Hd0 : 0 < d0.
Hypothesis Hinv : (2 ^ n | m * d0 - 1).

Lemma product_back (x : Z) :
  exists t, (x * m) mod 2 ^ n * d0 = x + t * 2 ^ n.
Proof.
  destruct Hinv as [u Hu].
  assert (H2n : 0 < 2 ^ n) by (apply Z.pow_pos_nonneg; lia).
  rewrite Z.mod_eq by lia.
  exists (x * u - x * m / 2 ^ n * d0).
  replace ((x * m - 2 ^ n * (x * m / 2 ^ n)) * d0)
    with (x * (m * d0 - 1) + x - 2 ^ n * (x * m / 2 ^ n) * d0) by ring.
  rewrite Hu. ring.
Qed.

Lemma odd_part_test (x : Z) :
  0 <= x < 2 ^ n ->
  ((d0 | x) <-> (x * m) mod 2 ^ n <= (2 ^ n - 1) / d0).
Proof.
  intros Hx.
  assert (H2n : 0 < 2 ^ n) by (apply Z.pow_pos_nonneg; lia).
  pose proof (Z.mod_pos_bound (x * m) (2 ^ n) H2n) as Hy.
  destruct (product_back x) as (t & Ht).
  split.
  - intros [q ->]. destruct Hinv as [u Hu].
    assert (Hq : 0 <= q < 2 ^ n) by nia.
    replace (q * d0 * m) with (q + q * u * 2 ^ n)
      by (replace (q * d0 * m) with (q * (m * d0 - 1) + q) by ring;
          rewrite Hu; ring).
    rewrite Z.mod_add, Z.mod_small by lia.
    apply Z.div_le_lower_bound; [lia |]. nia.
  - intros Hle.
    assert (Hyd : (x * m) mod 2 ^ n * d0 <= 2 ^ n - 1).
    { pose proof (Z.mul_div_le (2 ^ n - 1) d0 Hd0). nia. }
    assert (t = 0) by nia. subst t.
    exists ((x * m) mod 2 ^ n). lia.
Qed.

Lemma even_part_test (x : Z) :
  ((2 ^ k | x) <-> (2 ^ k | (x * m) mod 2 ^ n)).
Proof.
  assert (H2n : 0 < 2 ^ n) by (apply Z.pow_pos_nonneg; lia).
  assert (Hkn : (2 ^ k | 2 ^ n)).
  { exists (2 ^ (n - k)). apply pow_width_split. lia. }
  split.
  - intros Hdiv. rewrite Z.mod_eq by lia.
    apply Z.divide_sub_r.
    + now apply Z.divide_mul_l.
    + now apply Z.divide_mul_l.
  - intros Hdiv. destruct (product_back x) as (t & Ht).
    replace x with ((x * m) mod 2 ^ n * d0 - t * 2 ^ n) by lia.
    apply Z.divide_sub_r.
    + now apply Z.divide_mul_l.
    + now apply Z.divide_mul_r.
Qed.

Lemma divide_both_parts (x : Z) :
  ((d0 * 2 ^ k | x) <-> (d0 | x) /\ (2 ^ k | x)).
Proof.
  assert (H2k : 0 < 2 ^ k) by (apply Z.pow_pos_nonneg; lia).
  split.
  - intros [q ->]. split.
    + exists (q * 2 ^ k). ring.
    + exists (q * d0). ring.
  - intros [[v Hv] [u Hu]]. destruct Hinv as [w Hw].
    exists (m * u - w * 2 ^ (n - k) * v).
    assert (Hvv : v = 2 ^ k * (m * u - w * 2 ^ (n - k) * v)).
    { replace (2 ^ k * (m * u - w * 2 ^ (n - k) * v))
        with (m * (u * 2 ^ k) - w * v * (2 ^ (n - k) * 2 ^ k)) by ring.
      rewrite <- pow_width_split by lia. rewrite <- Hu, Hv.
      replace (m * (v * d0) - w * v * 2 ^ n)
        with (v * (m * d0 - 1 - w * 2 ^ n) + v) by ring.
      rewrite Hw. ring. }
    rewrite Hv. rewrite Hvv at 1. ring.
Qed.

(** Multiply, rotate and compare decides divisibility. *)
Lemma rotate_test (x : Z) :
  0 <= x < 2 ^ n ->
  (x mod (d0 * 2 ^ k) = 0 <->
   RotateRight n ((x * m) mod 2 ^ n) k <= (2 ^ n - 1) / (d0 * 2 ^ k)).
Proof.
  intros Hx.
  assert (H2n : 0 < 2 ^ n) by (apply Z.pow_pos_nonneg; lia).
  assert (H2k : 0 < 2 ^ k) by (apply Z.pow_pos_nonneg; lia).
  rewrite Z.mod_divide by nia.
  rewrite divide_both_parts, odd_part_test, (even_part_test x) by assumption.
  rewrite <- Z.div_div by lia.
  apply RotateRight_le; [assumption | apply Z.mod_pos_bound; assumption |].
  split; [apply Z.div_pos; lia |].
  apply Z.div_lt_upper_bound; [lia |]. nia.
Qed.

End Divisible.

(** ** Divisibility test: [udivisible] *)

Lemma mask_value (n : Z) :
  0 < n <= 64 -> U64.shr U64.all_ones (U64.sub 64 n) = 2 ^ n - 1.
Proof.
  intros Hn. rewrite width_gap by lia. unfold U64.shr, U64.all_ones.
  destruct (Z.leb_spec 64 (64 - n)); [lia |].
  rewrite Z.shiftr_div_pow2 by lia.
  assert (0 < 2 ^ (64 - n)) by (apply Z.pow_pos_nonneg; lia).
  symmetry.
  apply (Z.div_unique_pos _ _ _ (2 ^ (64 - n) - 1)); [lia |].
  rewrite (modulus_split n) by lia. ring.
Qed.

Section Udivisible.

Variables n c : Z.
Hypothesis Hn : 0 < n <= 64.
Hypothesis Hok : udivisibleOK n c = true.

Let d := residue n c.
Let k := bits.TrailingZeros64 d.
Let d0 := d / 2 ^ k.
Let m := Z.land (Nat.iter 5 (newton_step d0) d0) (2 ^ n - 1).

Lemma udivisible_divisor_shape :
  0 < d < 2 ^ n /\ 0 <= k < n /\ d = d0 * 2 ^ k /\ Z.odd d0 = true /\ 0 < d0.
Proof.
  destruct (umagic_divisor_shape n c Hn Hok) as [Hd Hnp]. fold d in Hd, Hnp.
  pose proof (pow_width_le n ltac:(lia)) as Hw.
  destruct (TrailingZeros64_spec d ltac:(lia)) as (Hk & Hsplit & Hodd).
  fold k in Hk, Hsplit, Hodd. fold d0 in Hsplit, Hodd.
  assert (H2k : 0 < 2 ^ k) by (apply Z.pow_pos_nonneg; lia).
  assert (Hpos : 0 < d0) by nia.
  repeat split; try assumption; try lia.
  apply (Z.pow_lt_mono_r_iff 2); [lia | lia |]. nia.
Qed.

Lemma udivisible_inverse : (2 ^ n | m * d0 - 1).
Proof.
  destruct udivisible_divisor_shape as (_ & _ & _ & Hodd & _).
  destruct (newton_five_steps d0 Hodd) as [u Hu].
  assert (H2n : 0 < 2 ^ n) by (apply Z.pow_pos_nonneg; lia).
  unfold m. replace (2 ^ n - 1) with (Z.ones n) by (rewrite Z.ones_equiv; lia).
  rewrite Z.land_ones, Z.mod_eq by lia.
  set (m5 := Nat.iter 5 (newton_step d0) d0) in *.
  exists (u * 2 ^ (64 - n) - m5 / 2 ^ n * d0).
  replace ((m5 - 2 ^ n * (m5 / 2 ^ n)) * d0 - 1)
    with (m5 * d0 - 1 - m5 / 2 ^ n * d0 * 2 ^ n) by ring.
  rewrite Hu, (modulus_split n) by lia. ring.
Qed.

Lemma udivisible_inverse_mod : (d0 * m) mod 2 ^ n = 1.
Proof.
  destruct udivisible_inverse as [u Hu].
  assert (H2n : 1 < 2 ^ n) by (apply Z.pow_gt_1; lia).
  replace (d0 * m) with (1 + u * 2 ^ n) by lia.
  rewrite Z.mod_add by lia. apply Z.mod_small. lia.
Qed.

Lemma udivisible_inverse_odd : Z.odd m = true.
Proof.
  destruct udivisible_inverse as [u Hu].
  assert (Hprod : Z.odd (m * d0) = true).
  { replace (m * d0) with (1 + 2 * (u * 2 ^ (n - 1))).
    - rewrite Z.odd_add_mul_2. reflexivity.
    - replace (2 * (u * 2 ^ (n - 1))) with (u * (2 ^ (n - 1) * 2 ^ 1)) by ring.
      rewrite <- Z.pow_add_r by lia. replace (n - 1 + 1) with n by lia. lia. }
  rewrite Z.odd_mul in Hprod. now apply andb_true_iff in Hprod.
Qed.

Lemma udivisible_computes :
  udivisible n c = Return (udivisibleData.mk k m ((2 ^ n - 1) / d)).
Proof.
  destruct udivisible_divisor_shape as (Hd & Hk & _).
  unfold udivisible. cbv zeta.
  rewrite auxint_to_uint64_residue by lia. fold d. fold k.
  rewrite mask_value by assumption.
  assert (Hshr : U64.shr d (U64.of_int k) = d0).
  { unfold U64.of_int, U64.modulus. rewrite Z.mod_small by lia.
    unfold U64.shr. destruct (Z.leb_spec 64 k); [lia |].
    apply Z.shiftr_div_pow2. lia. }
  rewrite Hshr. unfold U64.div. destruct (Z.eqb_spec d 0); [lia |].
  reflexivity.
Qed.

Lemma udivisible_decides (x : Z) :
  0 <= x < 2 ^ n ->
  (x mod d = 0 <-> RotateRight n ((x * m) mod 2 ^ n) k <= (2 ^ n - 1) / d).
Proof.
  intros Hx.
  destruct udivisible_divisor_shape as (Hd & Hk & Hsplit & Hodd & Hpos).
  rewrite Hsplit.
  apply rotate_test; try assumption. apply udivisible_inverse.
Qed.

End Udivisible.

Lemma ceil_div_least (P d : Z) :
  0 < d ->
  ((P + d - 1) / d - 1) * d < P <= (P + d - 1) / d * d.
Proof.
  intros Hd. destruct (ceil_div_excess P d Hd) as (e & He & HM). lia.
Qed.

Lemma power_of_two_pos (c : Z) : power_of_two c -> 0 < c.
Proof. intros (e & He & ->). apply Z.pow_pos_nonneg; lia. Qed.

(** * Properties of the magic constants *)

(** C1: for a supported width [n] and a constant accepted by [umagicOK],
    [umagic] returns [{s, m}] such that, with [d] the n-bit unsigned residue
    of [c], every [x] in [[0, 2^n)] satisfies
    [floor (x / d) = (x * (m + 2^n)) >> (n + s)], the product being exact and
    the shift logical. *)
Theorem umagic_correct (n c : Z) :
  supported n -> umagicOK n c = true ->
  exists r,
    umagic n c = Return r /\
    forall x, 0 <= x < 2 ^ n ->
      x / residue n c
      = Z.shiftr (x * (umagicData.m r + 2 ^ n)) (n + umagicData.s r).
Proof.
  intros Hs Hok. apply supported_range in Hs.
  eexists. split; [apply umagic_computes; assumption |].
  intros x Hx. cbn [umagicData.m umagicData.s].
  now apply umagic_divides.
Qed.

Lemma umagic_correct_witness :
  supported 8 /\ umagicOK 8 3 = true /\
  exists r,
    umagic 8 3 = Return r /\
    forall x, 0 <= x < 2 ^ 8 ->
      x / residue 8 3
      = Z.shiftr (x * (umagicData.m r + 2 ^ 8)) (8 + umagicData.s r).
Proof.
  split; [unfold supported; lia |].
  split; [vm_compute; reflexivity |].
  apply (umagic_correct 8 3); [unfold supported; lia | vm_compute; reflexivity].
Defined.

(** C2 (as stated, refuted): 257 is positive and accepted by [smagicOK] at
    width 8, yet [smagic 8 257] panics, so there are no [{s, m}]. *)
Lemma smagic_wide_constant_panics :
  smagicOK 8 257 = true /\ 0 < 257 /\
  smagic 8 257 = Panic "n+1st bit is set" /\
  forall r, smagic 8 257 <> Return r.
Proof.
  split; [vm_compute; reflexivity |]. split; [lia |].
  split; [vm_compute; reflexivity |].
  intros r H. vm_compute in H. discriminate.
Qed.

(** C2 (amended): for a supported width [n] and a constant [c] accepted by
    [smagicOK] with [0 < c < 2^n], [smagic] returns [{s, m}] such that every
    [x] in [[-2^(n-1), 2^(n-1))] satisfies
    [trunc (x / c) = ((x * m) >> (n + s)) + (1 if x < 0 else 0)], the product
    being exact and the shift arithmetic. *)
Theorem smagic_correct (n c : Z) :
  supported n -> smagicOK n c = true -> 0 < c < 2 ^ n ->
  exists r,
    smagic n c = Return r /\
    forall x, - 2 ^ (n - 1) <= x < 2 ^ (n - 1) ->
      Z.quot x c
      = Z.shiftr (x * smagicData.m r) (n + smagicData.s r)
        + (if x <? 0 then 1 else 0).
Proof.
  intros Hs Hok Hc. apply supported_range in Hs.
  eexists. split; [apply smagic_computes; assumption |].
  intros x Hx. cbn [smagicData.m smagicData.s].
  now apply smagic_divides.
Qed.

Lemma smagic_correct_witness :
  supported 8 /\ smagicOK 8 3 = true /\ 0 < 3 < 2 ^ 8 /\
  exists r,
    smagic 8 3 = Return r /\
    forall x, - 2 ^ (8 - 1) <= x < 2 ^ (8 - 1) ->
      Z.quot x 3
      = Z.shiftr (x * smagicData.m r) (8 + smagicData.s r)
        + (if x <? 0 then 1 else 0).
Proof.
  split; [unfold supported; lia |].
  split; [vm_compute; reflexivity |].
  split; [lia |].
  apply (smagic_correct 8 3);
    [unfold supported; lia | vm_compute; reflexivity | lia].
Defined.

(** C3: for a supported width [n] and a constant accepted by [udivisibleOK],
    [udivisible] returns [{k, m, max}] with [max = floor ((2^n - 1) / d)],
    [d] the n-bit unsigned residue of [c], such that every [x] in
    [[0, 2^n)] is divisible by [d] exactly when
    [RotateRight_n ((x * m) mod 2^n, k) <= max]. *)
Theorem udivisible_correct (n c : Z) :
  supported n -> udivisibleOK n c = true ->
  exists r,
    udivisible n c = Return r /\
    udivisibleData.max r = (2 ^ n - 1) / residue n c /\
    forall x, 0 <= x < 2 ^ n ->
      (x mod residue n c = 0 <->
       RotateRight n ((x * udivisibleData.m r) mod 2 ^ n) (udivisibleData.k r)
       <= udivisibleData.max r).
Proof.
  intros Hs Hok. apply supported_range in Hs.
  eexists. split; [apply udivisible_computes; assumption |].
  cbn [udivisibleData.m udivisibleData.k udivisibleData.max].
  split; [reflexivity |].
  intros x Hx. now apply udivisible_decides.
Qed.

Lemma udivisible_correct_witness :
  supported 8 /\ udivisibleOK 8 6 = true /\
  exists r,
    udivisible 8 6 = Return r /\
    udivisibleData.max r = (2 ^ 8 - 1) / residue 8 6 /\
    forall x, 0 <= x < 2 ^ 8 ->
      (x mod residue 8 6 = 0 <->
       RotateRight 8 ((x * udivisibleData.m r) mod 2 ^ 8) (udivisibleData.k r)
       <= udivisibleData.max r).
Proof.
  split; [unfold supported; lia |].
  split; [vm_compute; reflexivity |].
  apply (udivisible_correct 8 6);
    [unfold supported; lia | vm_compute; reflexivity].
Defined.

(** C4 (as stated, refuted): [smagic 8 3] does not return [s = 0] with
    [m = 86], and bit 7 of 86 is not set. *)
Lemma smagic_8_3_not_86 :
  smagic 8 3 <> Return (smagicData.mk 0 86) /\
  (forall r, smagic 8 3 = Return r -> smagicData.s r <> 0) /\
  Z.testbit 86 7 = false.
Proof.
  split; [vm_compute; discriminate |].
  split; [| reflexivity].
  intros r H. vm_compute in H. injection H as <-. cbn. lia.
Qed.

(** C4 (amended): for width 8 and the constant 3, [smagic] returns [s = 1]
    and [m = 171 = ceil (2^9 / 3)], with bit 7 of [m] set and bit 8 clear. *)
Theorem smagic_8_3_value :
  smagic 8 3 = Return (smagicData.mk 1 171) /\
  171 = (2 ^ (8 + 1) + 3 - 1) / 3 /\
  (171 - 1) * 3 < 2 ^ (8 + 1) <= 171 * 3 /\
  Z.testbit 171 7 = true /\ Z.testbit 171 8 = false.
Proof.
  split; [vm_compute; reflexivity |].
  split; [reflexivity |]. split; [lia |]. split; reflexivity.
Qed.

(** C5 (as stated, refuted): [-3] lies in the 8-bit signed range and is none
    of 0, 1, -1 or a power of two, yet [smagicOK] rejects it; and [-1] is
    accepted by [umagicOK] and [udivisibleOK], its 8-bit residue being 255. *)
Lemma applicability_not_exact :
  (- 2 ^ 7 <= -3 < 2 ^ 7 /\
   smagicOK 8 (-3) = false /\
   ~ (-3 = 0 \/ -3 = 1 \/ -3 = -1 \/ power_of_two (-3))) /\
  umagicOK 8 (-1) = true /\
  udivisibleOK 8 (-1) = true.
Proof.
  split; [| split; vm_compute; reflexivity].
  split; [lia |]. split; [vm_compute; reflexivity |].
  intros [H | [H | [H | H]]]; try lia.
  apply power_of_two_pos in H. lia.
Qed.

(** C5 (amended): for a supported width [n], [umagicOK] and [udivisibleOK]
    reject exactly the constants whose n-bit unsigned residue is 0 or a power
    of two (1 included), and [smagicOK] rejects exactly the negative
    constants, 0 and the powers of two (1 included); each accepts every
    other constant. *)
Theorem applicability_exact (n c : Z) :
  supported n ->
  (umagicOK n c = false <->
   residue n c = 0 \/ power_of_two (residue n c)) /\
  (udivisibleOK n c = false <->
   residue n c = 0 \/ power_of_two (residue n c)) /\
  (smagicOK n c = false <-> c < 0 \/ c = 0 \/ power_of_two c).
Proof.
  intros Hs. apply supported_range in Hs.
  split; [apply umagicOK_spec; lia |].
  split; [rewrite udivisibleOK_umagicOK; apply umagicOK_spec; lia |].
  apply smagicOK_spec.
Qed.

Lemma applicability_exact_witness :
  supported 8 /\
  (umagicOK 8 6 = false <->
   residue 8 6 = 0 \/ power_of_two (residue 8 6)) /\
  (udivisibleOK 8 6 = false <->
   residue 8 6 = 0 \/ power_of_two (residue 8 6)) /\
  (smagicOK 8 6 = false <-> 6 < 0 \/ 6 = 0 \/ power_of_two 6).
Proof.
  split; [unfold supported; lia |].
  apply (applicability_exact 8 6). unfold supported; lia.
Defined.

(** C6: for a supported width [n] and a constant accepted by [umagicOK],
    [umagic] returns (no panic branch is taken), its [s] is the ceiling of
    the binary logarithm of the residue [d], and [M = ceil (2^(n+s) / d)]
    has bit [n] set; the returned [m] is [M] with that bit cleared. *)
Theorem umagic_invariant (n c : Z) :
  supported n -> umagicOK n c = true ->
  exists r M,
    umagic n c = Return r /\
    umagicData.s r = Z.log2_up (residue n c) /\
    M = (2 ^ (n + umagicData.s r) + residue n c - 1) / residue n c /\
    (M - 1) * residue n c < 2 ^ (n + umagicData.s r) <= M * residue n c /\
    Z.testbit M n = true /\
    2 ^ n <= M < 2 ^ (n + 1) /\
    umagicData.m r = Z.clearbit M n.
Proof.
  intros Hs Hok. apply supported_range in Hs.
  pose proof (umagic_multiplier_range n c Hs Hok) as HM.
  destruct (umagic_divisor_shape n c Hs Hok) as [Hd _].
  eexists. eexists.
  split; [apply umagic_computes; assumption |].
  cbn [umagicData.m umagicData.s].
  split; [apply (umagic_shift_log2_up n c Hs Hok) |].
  split; [reflexivity |].
  split; [apply ceil_div_least; lia |].
  split; [apply testbit_top; lia |].
  split; [assumption |].
  symmetry. apply clearbit_top; lia.
Qed.

Lemma umagic_invariant_witness :
  supported 8 /\ umagicOK 8 3 = true /\
  exists r M,
    umagic 8 3 = Return r /\
    umagicData.s r = Z.log2_up (residue 8 3) /\
    M = (2 ^ (8 + umagicData.s r) + residue 8 3 - 1) / residue 8 3 /\
    (M - 1) * residue 8 3 < 2 ^ (8 + umagicData.s r) <= M * residue 8 3 /\
    Z.testbit M 8 = true /\
    2 ^ 8 <= M < 2 ^ (8 + 1) /\
    umagicData.m r = Z.clearbit M 8.
Proof.
  split; [unfold supported; lia |].
  split; [vm_compute; reflexivity |].
  apply (umagic_invariant 8 3);
    [unfold supported; lia | vm_compute; reflexivity].
Defined.

(** C7 (as stated, refuted): 257 is positive and accepted by [smagicOK] at
    width 8, but [M = ceil (2^(8+8) / 257) = 256] has bit 8 set and bit 7
    clear, and [smagic 8 257] takes the first panic branch. *)
Lemma smagic_invariant_fails_wide :
  smagicOK 8 257 = true /\ 0 < 257 /\
  Z.log2_up 257 - 1 = 8 /\
  (2 ^ (8 + 8) + 257 - 1) / 257 = 256 /\
  Z.testbit 256 8 = true /\ Z.testbit 256 7 = false /\
  smagic 8 257 = Panic "n+1st bit is set".
Proof. repeat split; vm_compute; reflexivity || discriminate. Qed.

(** C7 (amended): for a supported width [n] and a constant [c] accepted by
    [smagicOK] with [0 < c < 2^n], [smagic] returns (neither panic branch is
    taken), [s = ceil (log2 c) - 1], [M = ceil (2^(n+s) / c)] has bit [n]
    clear and bit [n-1] set, and the returned [m] is [M], so its top bit
    [n-1] is set. *)
Theorem smagic_invariant (n c : Z) :
  supported n -> smagicOK n c = true -> 0 < c < 2 ^ n ->
  exists r M,
    smagic n c = Return r /\
    smagicData.s r = Z.log2_up c - 1 /\
    M = (2 ^ (n + smagicData.s r) + c - 1) / c /\
    (M - 1) * c < 2 ^ (n + smagicData.s r) <= M * c /\
    Z.testbit M n = false /\
    Z.testbit M (n - 1) = true /\
    smagicData.m r = M /\
    Z.testbit (smagicData.m r) (n - 1) = true.
Proof.
  intros Hs Hok Hc. apply supported_range in Hs.
  pose proof (smagic_multiplier_range n c Hs Hok Hc) as HM.
  assert (0 < 2 ^ (n - 1)) by (apply Z.pow_pos_nonneg; lia).
  assert (Htop : forall M, 2 ^ (n - 1) <= M < 2 ^ n ->
                           Z.testbit M (n - 1) = true).
  { intros M HMr. apply testbit_top; [lia |].
    replace (n - 1 + 1) with n by lia. assumption. }
  eexists. eexists.
  split; [apply smagic_computes; assumption |].
  cbn [smagicData.m smagicData.s].
  split; [apply (smagic_shift_log2_up n c Hs Hok Hc) |].
  split; [reflexivity |].
  split; [apply ceil_div_least; lia |].
  split; [apply testbit_above; lia |].
  split; [apply Htop; assumption |].
  split; [reflexivity |].
  apply Htop; assumption.
Qed.

Lemma smagic_invariant_witness :
  supported 8 /\ smagicOK 8 3 = true /\ 0 < 3 < 2 ^ 8 /\
  exists r M,
    smagic 8 3 = Return r /\
    smagicData.s r = Z.log2_up 3 - 1 /\
    M = (2 ^ (8 + smagicData.s r) + 3 - 1) / 3 /\
    (M - 1) * 3 < 2 ^ (8 + smagicData.s r) <= M * 3 /\
    Z.testbit M 8 = false /\
    Z.testbit M (8 - 1) = true /\
    smagicData.m r = M /\
    Z.testbit (smagicData.m r) (8 - 1) = true.
Proof.
  split; [unfold supported; lia |].
  split; [vm_compute; reflexivity |].
  split; [lia |].
  apply (smagic_invariant 8 3);
    [unfold supported; lia | vm_compute; reflexivity | lia].
Defined.

(** C8: for a supported width [n] and a constant accepted by
    [udivisibleOK], with [d0] the odd part of the n-bit residue [d], the
    inverse [m] returned by [udivisible] satisfies [(d0 * m) mod 2^n = 1]
    and is odd; it is the result of exactly five Newton steps
    [m <- m * (2 - m * d0)] in wrap-around 64-bit arithmetic from the guess
    [m = d0], masked to [n] bits, the number of steps being the same for
    every width. *)
Theorem udivisible_inverse_newton (n c : Z) :
  supported n -> udivisibleOK n c = true ->
  exists r,
    udivisible n c = Return r /\
    let d := residue n c in
    let d0 := d / 2 ^ udivisibleData.k r in
    d = d0 * 2 ^ udivisibleData.k r /\
    Z.odd d0 = true /\
    (d0 * udivisibleData.m r) mod 2 ^ n = 1 /\
    Z.odd (udivisibleData.m r) = true /\
    0 <= udivisibleData.m r < 2 ^ n /\
    udivisibleData.m r
    = Z.land (Nat.iter 5 (newton_step d0) d0) (2 ^ n - 1).
Proof.
  intros Hs Hok. apply supported_range in Hs.
  destruct (udivisible_divisor_shape n c Hs Hok) as (_ & Hk & Hsplit & Hodd & _).
  eexists. split; [apply udivisible_computes; assumption |].
  cbn [udivisibleData.m udivisibleData.k]. cbv zeta.
  split; [exact Hsplit |].
  split; [exact Hodd |].
  split; [apply (udivisible_inverse_mod n c Hs Hok) |].
  split; [apply (udivisible_inverse_odd n c Hs Hok) |].
  split; [| reflexivity].
  replace (2 ^ n - 1) with (Z.ones n) by (rewrite Z.ones_equiv; lia).
  rewrite Z.land_ones by lia.
  apply Z.mod_pos_bound. apply Z.pow_pos_nonneg; lia.
Qed.

Lemma udivisible_inverse_newton_witness :
  supported 8 /\ udivisibleOK 8 6 = true /\
  exists r,
    udivisible 8 6 = Return r /\
    let d := residue 8 6 in
    let d0 := d / 2 ^ udivisibleData.k r in
    d = d0 * 2 ^ udivisibleData.k r /\
    Z.odd d0 = true /\
    (d0 * udivisibleData.m r) mod 2 ^ 8 = 1 /\
    Z.odd (udivisibleData.m r) = true /\
    0 <= udivisibleData.m r < 2 ^ 8 /\
    udivisibleData.m r
    = Z.land (Nat.iter 5 (newton_step d0) d0) (2 ^ 8 - 1).
Proof.
  split; [unfold supported; lia |].
  split; [vm_compute; reflexivity |].
  apply (udivisible_inverse_newton 8 6);
    [unfold supported; lia | vm_compute; reflexivity].
Defined.

(** C9: for a supported width [n] and two constants congruent modulo [2^n],
    [umagicOK], [udivisibleOK], [umagic] and [udivisible] give the same
    result on both, each working on the n-bit unsigned residue only. *)
Theorem unsigned_path_congruent (n c1 c2 : Z) :
  supported n -> c1 mod 2 ^ n = c2 mod 2 ^ n ->
  umagicOK n c1 = umagicOK n c2 /\
  udivisibleOK n c1 = udivisibleOK n c2 /\
  umagic n c1 = umagic n c2 /\
  udivisible n c1 = udivisible n c2.
Proof.
  intros Hs Hc. apply supported_range in Hs.
  assert (Hd : auxint_to_uint64 n c1 = auxint_to_uint64 n c2).
  { rewrite !auxint_to_uint64_residue by lia. exact Hc. }
  unfold umagicOK, udivisibleOK, umagic, udivisible.
  rewrite Hd. repeat split.
Qed.

Lemma unsigned_path_congruent_witness :
  supported 8 /\ 3 mod 2 ^ 8 = 259 mod 2 ^ 8 /\
  umagicOK 8 3 = umagicOK 8 259 /\
  udivisibleOK 8 3 = udivisibleOK 8 259 /\
  umagic 8 3 = umagic 8 259 /\
  udivisible 8 3 = udivisible 8 259.
Proof.
  split; [unfold supported; lia |].
  split; [reflexivity |].
  apply (unsigned_path_congruent 8 3 259);
    [unfold supported; lia | reflexivity].
Defined.

(** C10: [smagicOK] does not depend on its width argument, and makes no
    range check: it accepts exactly the positive constants that are not
    powers of two, among them 300 at width 8, which does not fit in 8
    bits. *)
Theorem smagicOK_ignores_width (n1 n2 c : Z) :
  smagicOK n1 c = smagicOK n2 c /\
  (smagicOK n1 c = true <-> 0 < c /\ ~ power_of_two c) /\
  smagicOK 8 300 = true /\ 2 ^ 8 <= 300.
Proof.
  split; [reflexivity |].
  split; [| split; [vm_compute; reflexivity | lia]].
  pose proof (smagicOK_spec n1 c) as Hspec.
  destruct (smagicOK n1 c).
  - split; [intros _ | reflexivity].
    assert (Hno : ~ (c < 0 \/ c = 0 \/ power_of_two c)).
    { intros H. apply Hspec in H. discriminate. }
    split; [lia | tauto].
  - split; [discriminate |]. intros [Hpos Hnp].
    destruct Hspec as [Hspec _]. specialize (Hspec eq_refl). exfalso.
    destruct Hspec as [H | [H | H]]; [lia | lia | tauto].
Qed.

(** * Further properties *)

(** ** Behaviour on constants the applicability checks reject *)

Lemma bitlen_pow2 (e : Z) : 0 <= e -> big.BitLen (2 ^ e) = e + 1.
Proof.
  intros He. unfold big.BitLen.
  assert (0 < 2 ^ e) by (apply Z.pow_pos_nonneg; lia).
  destruct (Z.eqb_spec (2 ^ e) 0); [lia |].
  rewrite Z.abs_eq, Z.log2_pow2 by lia. reflexivity.
Qed.

Lemma shift_amount (n s : Z) :
  0 <= n <= 64 -> 0 <= s <= 64 -> U64.add n (U64.of_int s) = n + s.
Proof.
  intros Hn Hs. unfold U64.add, U64.of_int, U64.modulus.
  rewrite (Z.mod_small s) by lia. apply Z.mod_small. lia.
Qed.

Lemma width_to_int (n : Z) : 0 <= n <= 64 -> U64.to_int n = n.
Proof.
  intros Hn. unfold U64.to_int. destruct (Z.ltb_spec n (2 ^ 63)); lia.
Qed.

Lemma ceil_div_pow2 (a e : Z) :
  0 <= e -> 0 <= a -> (2 ^ (a + e) + 2 ^ e - 1) / 2 ^ e = 2 ^ a.
Proof.
  intros He Ha. assert (0 < 2 ^ e) by (apply Z.pow_pos_nonneg; lia).
  symmetry. apply (Z.div_unique_pos _ _ _ (2 ^ e - 1)); [lia |].
  rewrite Z.pow_add_r by lia. ring.
Qed.

Lemma pow2_lt_exponent (e n : Z) : 0 <= e -> 2 ^ e < 2 ^ n -> e < n.
Proof.
  intros He H. assert (0 < 2 ^ e) by (apply Z.pow_pos_nonneg; lia).
  destruct (Z.lt_ge_cases n 0) as [Hneg | Hpos].
  - rewrite (Z.pow_neg_r 2 n) in H by assumption. lia.
  - apply (Z.pow_lt_mono_r_iff 2); lia.
Qed.

Lemma umagic_panics_zero (n c : Z) :
  0 <= n <= 64 -> residue n c = 0 -> umagic n c = Panic "division by zero".
Proof.
  intros Hn Hz. unfold umagic. cbv zeta.
  rewrite auxint_to_uint64_residue, Hz by assumption. reflexivity.
Qed.

Lemma umagic_panics_pow2 (n c : Z) :
  0 < n <= 64 -> power_of_two (residue n c) ->
  umagic n c = Panic "n+1st bit isn't set".
Proof.
  intros Hn (e & He & Hd).
  pose proof (residue_range n ltac:(lia) c) as Hr. rewrite Hd in Hr.
  assert (e < n) by (apply pow2_lt_exponent; lia).
  assert (0 < 2 ^ e) by (apply Z.pow_pos_nonneg; lia).
  unfold umagic. cbv zeta.
  rewrite auxint_to_uint64_residue, Hd, bitlen_pow2 by lia.
  rewrite shift_amount by lia. unfold big.Lsh. rewrite Z.shiftl_1_l.
  unfold big.Div. destruct (Z.eqb_spec (2 ^ e) 0); [lia |].
  rewrite Z.sgn_pos, Z.abs_eq, Z.mul_1_l by lia.
  replace (n + (e + 1)) with (n + 1 + e) by lia.
  rewrite ceil_div_pow2 by lia.
  rewrite width_to_int by lia. cbn [bind]. unfold big.Bit.
  destruct (Z.ltb_spec n 0); [lia |]. cbn [bind].
  rewrite Z.pow2_bits_false by lia. reflexivity.
Qed.

Lemma smagic_panics_zero (n : Z) : smagic n 0 = Panic "division by zero".
Proof. reflexivity. Qed.

Lemma smagic_panics_pow2 (n e : Z) :
  0 < n <= 64 -> 0 <= e < n -> smagic n (2 ^ e) = Panic "n+1st bit is set".
Proof.
  intros Hn He.
  assert (0 < 2 ^ e) by (apply Z.pow_pos_nonneg; lia).
  unfold smagic. cbv zeta. rewrite bitlen_pow2 by lia.
  replace (e + 1 - 1) with e by lia.
  rewrite shift_amount by lia. unfold big.Lsh. rewrite Z.shiftl_1_l.
  unfold big.Div. destruct (Z.eqb_spec (2 ^ e) 0); [lia |].
  rewrite Z.sgn_pos, Z.abs_eq, Z.mul_1_l by lia.
  rewrite ceil_div_pow2 by lia.
  rewrite width_to_int by lia. cbn [bind]. unfold big.Bit.
  destruct (Z.ltb_spec n 0); [lia |]. cbn [bind].
  rewrite Z.pow2_bits_true by lia. reflexivity.
Qed.

(** A negative quotient of magnitude at most [2^n] has bit [n] set in two's
    complement. *)
Lemma testbit_negative (q n : Z) :
  0 <= n -> 1 <= q <= 2 ^ n -> Z.testbit (- q) n = true.
Proof.
  intros Hn Hq. rewrite Z.bits_opp by assumption.
  rewrite (testbit_above (Z.pred q) n) by lia. reflexivity.
Qed.

Lemma smagic_panics_negative (n c : Z) :
  2 <= n <= 64 -> - 2 ^ 63 <= c < 0 -> smagic n c = Panic "n+1st bit is set".
Proof.
  intros Hn Hc.
  set (a := - c). assert (Ha : 0 < a <= 2 ^ 63) by (unfold a; lia).
  destruct (Z.log2_spec a ltac:(lia)) as [Hlo Hhi].
  pose proof (Z.log2_nonneg a) as Hl0.
  assert (Hl : Z.log2 a <= 63).
  { replace 63 with (Z.log2 (2 ^ 63)) by (now rewrite Z.log2_pow2).
    apply Z.log2_le_mono. lia. }
  set (s := Z.log2 a) in *.
  replace (Z.succ s) with (s + 1) in Hhi by lia.
  assert (Hs2 : 2 ^ (s + 1) = 2 * 2 ^ s).
  { rewrite Z.pow_add_r, Z.pow_1_r by lia. ring. }
  assert (Hp : 2 ^ (n + s) = 2 ^ (n - 2) * (4 * 2 ^ s)).
  { replace (n + s) with (n - 2 + (2 + s)) by lia.
    rewrite Z.pow_add_r, (Z.pow_add_r 2 2 s) by lia. reflexivity. }
  assert (0 < 2 ^ (n - 2)) by (apply Z.pow_pos_nonneg; lia).
  assert (0 < 2 ^ s) by (apply Z.pow_pos_nonneg; lia).
  assert (Hn2 : 2 ^ n = 2 ^ (n - 2) * 4).
  { replace n with (n - 2 + 2) at 1 by lia. now rewrite Z.pow_add_r by lia. }
  unfold smagic. cbv zeta.
  assert (Hbl : big.BitLen c - 1 = s).
  { unfold big.BitLen. destruct (Z.eqb_spec c 0); [lia |].
    rewrite Z.abs_neq by lia. fold a. fold s. lia. }
  rewrite Hbl, shift_amount by lia.
  unfold big.Lsh. rewrite Z.shiftl_1_l.
  unfold big.Div. destruct (Z.eqb_spec c 0); [lia |].
  rewrite Z.sgn_neg, Z.abs_neq by lia. fold a.
  set (q := (2 ^ (n + s) + c - 1) / a).
  assert (Hq : 1 <= q <= 2 ^ n).
  { unfold q. split.
    - apply Z.div_le_lower_bound; [lia |]. unfold a in *. nia.
    - apply Z.lt_le_incl, Z.div_lt_upper_bound; [lia |]. unfold a in *. nia. }
  replace (-1 * q) with (- q) by ring.
  rewrite width_to_int by lia. cbn [bind]. unfold big.Bit.
  destruct (Z.ltb_spec n 0); [lia |]. cbn [bind].
  rewrite testbit_negative by lia. reflexivity.
Qed.

Lemma udivisible_panics_zero (n c : Z) :
  0 <= n <= 64 -> residue n c = 0 ->
  udivisible n c = Panic "integer divide by zero".
Proof.
  intros Hn Hz. unfold udivisible. cbv zeta.
  rewrite auxint_to_uint64_residue, Hz by assumption. reflexivity.
Qed.

(** ** [udivisible] on every non-zero residue *)

Section UdivisibleNonzero.

Variables n c : Z.
Hypothesis Hn : 0 < n <= 64.
Hypothesis Hnz : residue n c <> 0.

Let d := residue n c.
Let k := bits.TrailingZeros64 d.
Let d0 := d / 2 ^ k.
Let m := Z.land (Nat.iter 5 (newton_step d0) d0) (2 ^ n - 1).

Lemma nonzero_divisor_shape :
  0 < d < 2 ^ n /\ 0 <= k < n /\ d = d0 * 2 ^ k /\ Z.odd d0 = true /\ 0 < d0.
Proof.
  pose proof (residue_range n ltac:(lia) c) as Hd. fold d in Hd, Hnz.
  pose proof (pow_width_le n ltac:(lia)) as Hw.
  destruct (TrailingZeros64_spec d ltac:(lia)) as (Hk & Hsplit & Hodd).
  fold k in Hk, Hsplit, Hodd. fold d0 in Hsplit, Hodd.
  assert (H2k : 0 < 2 ^ k) by (apply Z.pow_pos_nonneg; lia).
  assert (Hpos : 0 < d0) by nia.
  repeat split; try assumption; try lia.
  apply pow2_lt_exponent; [lia |]. nia.
Qed.

Lemma nonzero_inverse : (2 ^ n | m * d0 - 1).
Proof.
  destruct nonzero_divisor_shape as (_ & _ & _ & Hodd & _).
  destruct (newton_five_steps d0 Hodd) as [u Hu].
  assert (H2n : 0 < 2 ^ n) by (apply Z.pow_pos_nonneg; lia).
  unfold m. replace (2 ^ n - 1) with (Z.ones n) by (rewrite Z.ones_equiv; lia).
  rewrite Z.land_ones, Z.mod_eq by lia.
  generalize dependent (Nat.iter 5 (newton_step d0) d0). intros m5 m' Hu.
  exists (u * 2 ^ (64 - n) - m5 / 2 ^ n * d0).
  pose proof (modulus_split n ltac:(lia)) as Hsplit.
  generalize dependent (m5 / 2 ^ n). intros h.
  generalize dependent (2 ^ (64 - n)). intros g Hg.
  rewrite Hg in Hu. nia.
Qed.

Lemma nonzero_computes :
  udivisible n c = Return (udivisibleData.mk k m ((2 ^ n - 1) / d)).
Proof.
  destruct nonzero_divisor_shape as (Hd & Hk & _).
  unfold udivisible. cbv zeta.
  rewrite auxint_to_uint64_residue by lia. fold d. fold k.
  rewrite mask_value by assumption.
  assert (Hshr : U64.shr d (U64.of_int k) = d0).
  { unfold U64.of_int, U64.modulus. rewrite Z.mod_small by lia.
    unfold U64.shr. destruct (Z.leb_spec 64 k); [lia |].
    apply Z.shiftr_div_pow2. lia. }
  rewrite Hshr. unfold U64.div. destruct (Z.eqb_spec d 0); [lia |].
  reflexivity.
Qed.

Lemma nonzero_decides (x : Z) :
  0 <= x < 2 ^ n ->
  (x mod d = 0 <-> RotateRight n ((x * m) mod 2 ^ n) k <= (2 ^ n - 1) / d).
Proof.
  intros Hx.
  destruct nonzero_divisor_shape as (Hd & Hk & Hsplit & Hodd & Hpos).
  rewrite Hsplit.
  apply rotate_test; try assumption. apply nonzero_inverse.
Qed.

(** On a multiple of the divisor the rotated product is the quotient. *)
Lemma nonzero_quotient (x : Z) :
  0 <= x < 2 ^ n -> x mod d = 0 ->
  RotateRight n ((x * m) mod 2 ^ n) k = x / d.
Proof.
  intros Hx Hmod.
  destruct nonzero_divisor_shape as (Hd & Hk & Hsplit & Hodd & Hpos).
  destruct nonzero_inverse as [u Hu].
  assert (H2n : 0 < 2 ^ n) by (apply Z.pow_pos_nonneg; lia).
  assert (H2k : 0 < 2 ^ k) by (apply Z.pow_pos_nonneg; lia).
  apply Z.mod_divide in Hmod; [| lia]. destruct Hmod as [q Hq].
  assert (Hxd : x / d = q) by (rewrite Hq; apply Z.div_mul; lia).
  rewrite Hxd.
  assert (Hq0 : 0 <= q) by nia.
  assert (Hy : (x * m) mod 2 ^ n = q * 2 ^ k).
  { replace (x * m) with (q * 2 ^ k + q * 2 ^ k * u * 2 ^ n).
    - rewrite Z.mod_add by lia. apply Z.mod_small. nia.
    - rewrite Hq, Hsplit.
      replace (q * (d0 * 2 ^ k) * m) with (q * 2 ^ k * (m * d0 - 1) + q * 2 ^ k)
        by ring.
      rewrite Hu. ring. }
  rewrite Hy, RotateRight_split by (try lia; nia).
  rewrite Z.div_mul, Z.mod_mul by lia. ring.
Qed.

End UdivisibleNonzero.

(** ** The three n-bit evaluation schemes for unsigned division *)

Section UmagicCases.

Variables n c : Z.
Hypothesis Hn : 0 < n <= 64.
Hypothesis Hok : umagicOK n c = true.

Let d := residue n c.
Let s := Z.log2 d + 1.
Let M := (2 ^ (n + s) + d - 1) / d.

Lemma umagic_shift_at_least_2 : 2 <= s <= n.
Proof.
  destruct (umagic_shift_bounds n c Hn Hok) as [Hs Hb].
  fold d in Hs, Hb. fold s in Hs, Hb.
  destruct (Z.eq_dec s 1) as [H1 | Hne]; [| lia].
  rewrite H1 in Hb. change (2 ^ (1 - 1)) with 1 in Hb.
  change (2 ^ 1) with 2 in Hb. lia.
Qed.

Lemma umagic_excess :
  exists e, 0 <= e < d /\ M * d = 2 ^ (n + s) + e /\ d < 2 ^ s.
Proof.
  destruct (umagic_shift_bounds n c Hn Hok) as [Hs Hb].
  destruct (umagic_divisor_shape n c Hn Hok) as [Hd _].
  fold d in Hs, Hb, Hd. fold s in Hs, Hb.
  destruct (ceil_div_excess (2 ^ (n + s)) d ltac:(lia)) as (e & He & HM).
  fold M in HM. exists e. repeat split; lia.
Qed.

Lemma umagic_multiplier_strict : 2 ^ n < M < 2 ^ (n + 1).
Proof.
  pose proof (umagic_multiplier_range n c Hn Hok) as HM.
  fold d in HM. fold s in HM. fold M in HM.
  destruct umagic_excess as (e & He & HMd & Hds).
  pose proof umagic_shift_at_least_2 as Hs.
  assert (Hp : 2 ^ (n + s) = 2 ^ n * 2 ^ s) by (apply Z.pow_add_r; lia).
  assert (0 < 2 ^ n) by (apply Z.pow_pos_nonneg; lia).
  split; [| lia].
  destruct (Z.eq_dec M (2 ^ n)) as [Heq | Hne]; [| lia].
  rewrite Heq in HMd. nia.
Qed.

Lemma umagic_floor (x : Z) :
  0 <= x < 2 ^ n -> (x * M) / 2 ^ (n + s) = x / d.
Proof.
  intros Hx.
  pose proof (umagic_divides n c Hn Hok x Hx) as H.
  fold d in H. fold s in H. fold M in H.
  pose proof umagic_shift_at_least_2.
  rewrite Z.shiftr_div_pow2 in H by lia.
  replace (M - 2 ^ n + 2 ^ n) with M in H by ring. now symmetry.
Qed.

(** Case 1: the multiplier is even. *)
Lemma umagic_case_even_multiplier (x : Z) :
  0 <= x < 2 ^ n -> Z.even M = true ->
  x / d = (x * (M / 2)) / 2 ^ n / 2 ^ (s - 1).
Proof.
  intros Hx Hev. pose proof umagic_shift_at_least_2 as Hs.
  apply Z.even_spec in Hev. destruct Hev as [h Hh].
  assert (0 < 2 ^ n) by (apply Z.pow_pos_nonneg; lia).
  assert (0 < 2 ^ (s - 1)) by (apply Z.pow_pos_nonneg; lia).
  rewrite <- (umagic_floor x Hx), Hh.
  replace (2 * h / 2) with h by (rewrite Z.mul_comm, Z.div_mul; lia).
  rewrite Z.div_div by lia.
  rewrite <- Z.pow_add_r by lia.
  replace (n + s) with (1 + (n + (s - 1))) by lia.
  rewrite (Z.pow_add_r 2 1) by lia. change (2 ^ 1) with 2.
  replace (x * (2 * h)) with (2 * (x * h)) by ring.
  apply Z.div_mul_cancel_l; lia.
Qed.

(** Case 3: multiply by the low [n] bits of the multiplier, average with
    the operand, shift. *)
Lemma umagic_case_average (x : Z) :
  0 <= x < 2 ^ n ->
  x / d = (x + (x * (M - 2 ^ n)) / 2 ^ n) / 2 / 2 ^ (s - 1).
Proof.
  intros Hx. pose proof umagic_shift_at_least_2 as Hs.
  assert (0 < 2 ^ n) by (apply Z.pow_pos_nonneg; lia).
  assert (0 < 2 ^ (s - 1)) by (apply Z.pow_pos_nonneg; lia).
  rewrite <- (umagic_floor x Hx).
  rewrite Z.div_div by lia.
  replace (2 * 2 ^ (s - 1)) with (2 ^ s)
    by (replace s with (1 + (s - 1)) at 1 by lia;
        now rewrite Z.pow_add_r by lia).
  replace (x + x * (M - 2 ^ n) / 2 ^ n) with ((x * M) / 2 ^ n).
  - rewrite Z.div_div by (try lia; apply Z.pow_pos_nonneg; lia).
    now rewrite <- Z.pow_add_r by lia.
  - replace (x * M) with (x * 2 ^ n + x * (M - 2 ^ n)) by ring.
    apply Z.div_add_l. lia.
Qed.

(** Case 2: the divisor is even; halve the operand first. *)
Lemma umagic_case_even_divisor (x : Z) :
  0 <= x < 2 ^ n -> Z.even d = true ->
  3 <= s /\
  (M + 1) / 2 < 2 ^ n /\
  x / d = ((x / 2) * ((M + 1) / 2)) / 2 ^ n / 2 ^ (s - 2).
Proof.
  intros Hx Hev. pose proof umagic_shift_at_least_2 as Hs.
  destruct umagic_excess as (e & He & HMd & Hds).
  destruct (umagic_shift_bounds n c Hn Hok) as [_ Hb].
  fold d in Hb. fold s in Hb.
  apply Z.even_spec in Hev. destruct Hev as [d' Hd'].
  assert (Hs3 : 3 <= s).
  { destruct (Z.eq_dec s 2) as [H2 | Hne]; [| lia].
    rewrite H2 in Hb. change (2 ^ (2 - 1)) with 2 in Hb.
    change (2 ^ 2) with 4 in Hb. lia. }
  split; [assumption |].
  assert (H2n : 0 < 2 ^ n) by (apply Z.pow_pos_nonneg; lia).
  assert (H2s : 0 < 2 ^ (s - 2)) by (apply Z.pow_pos_nonneg; lia).
  assert (Hn1 : 2 ^ n = 2 * 2 ^ (n - 1)).
  { replace n with (1 + (n - 1)) at 1 by lia. now rewrite Z.pow_add_r by lia. }
  assert (Hs1 : 2 ^ s = 2 * 2 ^ (s - 1)).
  { replace s with (1 + (s - 1)) at 1 by lia. now rewrite Z.pow_add_r by lia. }
  assert (HP : 2 ^ (n + s) = 4 * (2 ^ (n - 1) * 2 ^ (s - 1))).
  { rewrite Z.pow_add_r, Hn1, Hs1 by lia. ring. }
  assert (HP' : 2 ^ n * 2 ^ (s - 2) = 2 ^ (n - 1) * 2 ^ (s - 1)).
  { rewrite Hn1. replace (s - 1) with (1 + (s - 2)) by lia.
    rewrite (Z.pow_add_r 2 1) by lia. change (2 ^ 1) with 2. ring. }
  assert (0 < 2 ^ (n - 1)) by (apply Z.pow_pos_nonneg; lia).
  assert (0 < 2 ^ (s - 1)) by (apply Z.pow_pos_nonneg; lia).
  set (P := 2 ^ (n - 1) * 2 ^ (s - 1)) in *.
  pose proof (Z.div_mod (M + 1) 2 ltac:(lia)) as HM2.
  pose proof (Z.mod_pos_bound (M + 1) 2 ltac:(lia)) as HM2r.
  pose proof (Z.div_mod x 2 ltac:(lia)) as Hx2.
  pose proof (Z.mod_pos_bound x 2 ltac:(lia)) as Hx2r.
  set (M' := (M + 1) / 2) in *. set (x' := x / 2) in *.
  assert (Hxd : x / d = x' / d').
  { rewrite Hd'. unfold x'. rewrite Z.div_div by lia. reflexivity. }
  assert (He4 : 4 * (M' * d' - P) = e + (1 - (M + 1) mod 2) * d).
  { replace (4 * (M' * d' - P))
      with ((2 * M') * (2 * d') - 4 * P) by ring.
    rewrite <- Hd'. replace (2 * M') with (M + 1 - (M + 1) mod 2) by lia.
    replace ((M + 1 - (M + 1) mod 2) * d)
      with (M * d + (1 - (M + 1) mod 2) * d) by ring.
    rewrite HMd, HP. ring. }
  assert (Hel : 0 <= M' * d' - P < d') by nia.
  assert (Hd's : 0 < d' < 2 ^ (s - 1)) by lia.
  assert (Hx' : 0 <= x' < 2 ^ (n - 1)) by lia.
  assert (HPpos : 0 < P) by (unfold P; nia).
  assert (Hs2 : 2 ^ (s - 1) = 2 * 2 ^ (s - 2)).
  { replace (s - 1) with (1 + (s - 2)) by lia. now rewrite Z.pow_add_r by lia. }
  assert (Hsn : 2 ^ (s - 1) <= 2 ^ (n - 1)) by (apply Z.pow_le_mono_r; lia).
  split.
  - destruct (Z.lt_ge_cases M' (2 ^ n)) as [| Hge]; [assumption |].
    exfalso. assert (2 ^ n * d' <= M' * d') by nia. nia.
  - rewrite Hxd, Z.div_div, HP' by lia. symmetry.
    apply (mul_div_floor x' d' M' P (M' * d' - P)); try lia.
    unfold P. nia.
Qed.

End UmagicCases.

(** ** Signed division: the forms its consumers evaluate *)

Lemma sign_shift (n x : Z) :
  0 < n -> - 2 ^ (n - 1) <= x < 2 ^ (n - 1) ->
  - Z.shiftr x (n - 1) = if x <? 0 then 1 else 0.
Proof.
  intros Hn Hx. rewrite Z.shiftr_div_pow2 by lia.
  assert (0 < 2 ^ (n - 1)) by (apply Z.pow_pos_nonneg; lia).
  destruct (Z.ltb_spec x 0).
  - replace (x / 2 ^ (n - 1)) with (-1); [reflexivity |].
    apply (Z.div_unique_pos x (2 ^ (n - 1)) (-1) (x + 2 ^ (n - 1))); lia.
  - rewrite Z.div_small by lia. reflexivity.
Qed.

Section SmagicForms.

Variables n c : Z.
Hypothesis Hn : 0 < n <= 64.
Hypothesis Hok : smagicOK n c = true.
Hypothesis Hc : 0 < c < 2 ^ n.

Let s := Z.log2 c.
Let M := (2 ^ (n + s) + c - 1) / c.

Lemma smagic_shift_at_least_1 : 1 <= s <= n - 1.
Proof.
  destruct (smagic_shift_bounds n c Hn Hok Hc) as [Hs Hb].
  fold s in Hs, Hb.
  destruct (Z.eq_dec s 0) as [H0 | Hne]; [| lia].
  rewrite H0 in Hb. change (2 ^ 0) with 1 in Hb.
  change (2 ^ (0 + 1)) with 2 in Hb. lia.
Qed.

Lemma smagic_shift_signed_range : c < 2 ^ (n - 1) -> s <= n - 2.
Proof.
  intros Hc'. destruct (smagic_shift_bounds n c Hn Hok Hc) as [Hs Hb].
  fold s in Hs, Hb.
  assert (s < n - 1); [| lia].
  apply pow2_lt_exponent; lia.
Qed.

Lemma smagic_multiplier_strict : 2 ^ (n - 1) < M < 2 ^ n.
Proof.
  pose proof (smagic_multiplier_range n c Hn Hok Hc) as HM.
  destruct (smagic_excess n c Hn Hok Hc) as (e & He & HMc).
  destruct (smagic_shift_bounds n c Hn Hok Hc) as [Hs Hb].
  fold s in HM, HMc, Hs, Hb. fold M in HM, HMc.
  split; [| lia].
  destruct (Z.eq_dec M (2 ^ (n - 1))) as [Heq | Hne]; [| lia].
  assert (Hp : 2 ^ (n + s) = 2 ^ (n - 1) * 2 ^ (s + 1)).
  { rewrite <- Z.pow_add_r by lia. f_equal. lia. }
  assert (0 < 2 ^ (n - 1)) by (apply Z.pow_pos_nonneg; lia).
  rewrite Heq in HMc. nia.
Qed.

(** The product with the multiplier read as a signed n-bit value, corrected
    by adding the operand. *)
Lemma smagic_signed_multiplier (x : Z) :
  Z.shiftr (x * M) (n + s)
  = Z.shiftr (Z.shiftr (x * (M - 2 ^ n)) n + x) s.
Proof.
  pose proof smagic_shift_at_least_1 as Hs.
  assert (0 < 2 ^ n) by (apply Z.pow_pos_nonneg; lia).
  rewrite <- Z.shiftr_shiftr by lia. f_equal.
  rewrite !Z.shiftr_div_pow2 by lia.
  replace (x * M) with (x * (M - 2 ^ n) + x * 2 ^ n) by ring.
  apply Z.div_add. lia.
Qed.

End SmagicForms.

(** ** The signed and the unsigned constants of one divisor *)

Lemma half_ceiling (Q c Mu Ms eu es : Z) :
  0 < c -> 0 <= eu < c -> 0 <= es < c ->
  Mu * c = 2 * Q + eu -> Ms * c = Q + es ->
  Ms = (Mu + 1) / 2.
Proof.
  intros Hc Heu Hes HMu HMs.
  assert (Ht : (2 * Ms - Mu) * c = 2 * es - eu) by lia.
  assert (Hr : 0 <= 2 * Ms - Mu <= 1) by nia.
  apply (Z.div_unique_pos (Mu + 1) 2 Ms (Mu + 1 - 2 * Ms)); lia.
Qed.

(** ** Precision of the Newton iteration *)

Lemma inverse_unique_mod (n d0 a b : Z) :
  (2 ^ n | a * d0 - 1) -> (2 ^ n | b * d0 - 1) -> (2 ^ n | a - b).
Proof.
  intros [u Hu] [v Hv]. exists (b * u - a * v).
  replace (a - b) with (b * (a * d0 - 1) - a * (b * d0 - 1)) by ring.
  rewrite Hu, Hv. ring.
Qed.

Lemma congruent_low_bits (n a b : Z) :
  0 <= n -> (2 ^ n | a - b) ->
  Z.land a (2 ^ n - 1) = Z.land b (2 ^ n - 1).
Proof.
  intros Hn [t Ht].
  replace (2 ^ n - 1) with (Z.ones n) by (rewrite Z.ones_equiv; lia).
  rewrite !Z.land_ones by assumption.
  replace a with (b + t * 2 ^ n) by lia.
  apply Z.mod_add. apply Z.pow_nonzero; lia.
Qed.

Lemma divide_pow2_le (a b x : Z) :
  0 <= a <= b -> (2 ^ b | x) -> (2 ^ a | x).
Proof.
  intros Hab [t Ht]. exists (t * 2 ^ (b - a)).
  rewrite <- Z.mul_assoc, <- Z.pow_add_r by lia.
  replace (b - a + a) with b by lia. assumption.
Qed.

(** After [j] steps the low [min (3 * 2^j) 64] bits are correct. *)
Lemma newton_iter_precision (d0 : Z) (j : nat) :
  Z.odd d0 = true ->
  (2 ^ Z.min (3 * 2 ^ Z.of_nat j) 64
   | Nat.iter j (newton_step d0) d0 * d0 - 1).
Proof.
  intros Hodd. induction j as [| j IH].
  - cbn [Nat.iter nat_rect]. change (Z.min (3 * 2 ^ Z.of_nat 0) 64) with 3.
    now apply odd_square_mod8.
  - cbn [Nat.iter nat_rect].
    assert (Hpow : 2 ^ Z.of_nat (S j) = 2 * 2 ^ Z.of_nat j).
    { rewrite Nat2Z.inj_succ. apply Z.pow_succ_r. lia. }
    assert (0 < 2 ^ Z.of_nat j) by (apply Z.pow_pos_nonneg; lia).
    apply (newton_step_doubles d0 _ (Z.min (3 * 2 ^ Z.of_nat j) 64));
      try lia.
    exact IH.
Qed.

Lemma newton_iter_low_bits (d0 n : Z) (j : nat) :
  Z.odd d0 = true -> 0 <= n <= 64 -> n <= 3 * 2 ^ Z.of_nat j ->
  Z.land (Nat.iter j (newton_step d0) d0) (2 ^ n - 1)
  = Z.land (Nat.iter 5 (newton_step d0) d0) (2 ^ n - 1).
Proof.
  intros Hodd Hn Hj. apply congruent_low_bits; [lia |].
  apply (inverse_unique_mod n d0).
  - apply (divide_pow2_le n (Z.min (3 * 2 ^ Z.of_nat j) 64)); [lia |].
    now apply newton_iter_precision.
  - apply (divide_pow2_le n 64); [lia |].
    now apply newton_five_steps.
Qed.

Lemma inverse_mod_one (n a d0 : Z) :
  0 < n -> (2 ^ n | a * d0 - 1) -> (a * d0) mod 2 ^ n = 1.
Proof.
  intros Hn [u Hu]. assert (1 < 2 ^ n) by (apply Z.pow_gt_1; lia).
  replace (a * d0) with (1 + u * 2 ^ n) by lia.
  rewrite Z.mod_add by lia. apply Z.mod_small. lia.
Qed.

Lemma mod_one_inverse (n a d0 : Z) :
  0 < n -> (a * d0) mod 2 ^ n = 1 -> (2 ^ n | a * d0 - 1).
Proof.
  intros Hn H. assert (0 < 2 ^ n) by (apply Z.pow_pos_nonneg; lia).
  exists ((a * d0) / 2 ^ n).
  pose proof (Z.div_mod (a * d0) (2 ^ n) ltac:(lia)). lia.
Qed.

(** ** Widths outside 1..64 *)


(** ** Results *)

(** X1: for a supported width, [umagic] returns exactly on the constants
    [umagicOK] accepts; on a residue 0 it panics in the division, and on a
    residue that is a power of two (1 included) its bit check fails. *)
Theorem umagic_returns_iff (n c : Z) :
  supported n ->
  ((exists r, umagic n c = Return r) <-> umagicOK n c = true) /\
  (residue n c = 0 -> umagic n c = Panic "division by zero") /\
  (power_of_two (residue n c) -> umagic n c = Panic "n+1st bit isn't set").
Proof.
  intros Hs. apply supported_range in Hs.
  split; [| split].
  - split.
    + intros [r Hr]. destruct (umagicOK n c) eqn:Hok; [reflexivity |].
      apply umagicOK_spec in Hok; [| lia]. destruct Hok as [Hz | Hp].
      * rewrite umagic_panics_zero in Hr by (assumption || lia). discriminate.
      * rewrite umagic_panics_pow2 in Hr by assumption. discriminate.
    + intros Hok. eexists. apply umagic_computes; assumption.
  - apply umagic_panics_zero. lia.
  - now apply umagic_panics_pow2.
Qed.

Lemma umagic_returns_iff_witness :
  supported 8 /\
  ((exists r, umagic 8 4 = Return r) <-> umagicOK 8 4 = true) /\
  (residue 8 4 = 0 -> umagic 8 4 = Panic "division by zero") /\
  (power_of_two (residue 8 4) -> umagic 8 4 = Panic "n+1st bit isn't set").
Proof.
  split; [unfold supported; lia |].
  apply (umagic_returns_iff 8 4). unfold supported; lia.
Defined.

(** X2: for a supported width and an [int64] constant below [2^n], [smagic]
    returns exactly on the constants [smagicOK] accepts; it panics in the
    division on 0, and its first bit check fails on every negative constant
    and on every power of two (1 included). *)
Theorem smagic_returns_iff (n c : Z) :
  supported n -> - 2 ^ 63 <= c < 2 ^ n ->
  ((exists r, smagic n c = Return r) <-> smagicOK n c = true) /\
  (c = 0 -> smagic n c = Panic "division by zero") /\
  (c < 0 \/ power_of_two c -> smagic n c = Panic "n+1st bit is set").
Proof.
  intros Hs Hc.
  assert (Hn2 : 2 <= n <= 64) by (unfold supported in Hs; lia).
  assert (Hbad : c < 0 \/ power_of_two c ->
                 smagic n c = Panic "n+1st bit is set").
  { intros [Hneg | (e & He & ->)].
    - apply smagic_panics_negative; lia.
    - apply smagic_panics_pow2; [lia |]. split; [lia |].
      apply pow2_lt_exponent; lia. }
  split; [| split].
  - split.
    + intros [r Hr]. destruct (smagicOK n c) eqn:Hok; [reflexivity |].
      apply smagicOK_spec in Hok. destruct Hok as [Hneg | [-> | Hp]].
      * rewrite Hbad in Hr by tauto. discriminate.
      * rewrite smagic_panics_zero in Hr. discriminate.
      * rewrite Hbad in Hr by tauto. discriminate.
    + intros Hok. eexists. apply smagic_computes; try assumption; try lia.
      split; [| lia]. destruct (Z.lt_ge_cases 0 c) as [| Hle]; [assumption |].
      assert (H : smagicOK n c = false); [| congruence].
      apply smagicOK_spec. lia.
  - intros ->. apply smagic_panics_zero.
  - exact Hbad.
Qed.

Lemma smagic_returns_iff_witness :
  supported 8 /\ - 2 ^ 63 <= -6 < 2 ^ 8 /\
  ((exists r, smagic 8 (-6) = Return r) <-> smagicOK 8 (-6) = true) /\
  (-6 = 0 -> smagic 8 (-6) = Panic "division by zero") /\
  (-6 < 0 \/ power_of_two (-6) -> smagic 8 (-6) = Panic "n+1st bit is set").
Proof.
  split; [unfold supported; lia |]. split; [lia |].
  apply (smagic_returns_iff 8 (-6)); [unfold supported; lia | lia].
Defined.

(** X3: for a supported width, [udivisible] panics (division by zero) when
    the residue is 0 and returns on every other constant, powers of two
    included although [udivisibleOK] rejects them; whenever it returns, its
    [max] is [floor ((2^n - 1) / d)] and the rotate-and-compare test decides
    divisibility by the residue [d]. *)
Theorem udivisible_nonzero_correct (n c : Z) :
  supported n ->
  (residue n c = 0 -> udivisible n c = Panic "integer divide by zero") /\
  (residue n c <> 0 ->
   exists r,
     udivisible n c = Return r /\
     udivisibleData.max r = (2 ^ n - 1) / residue n c /\
     forall x, 0 <= x < 2 ^ n ->
       (x mod residue n c = 0 <->
        RotateRight n ((x * udivisibleData.m r) mod 2 ^ n)
          (udivisibleData.k r)
        <= udivisibleData.max r)).
Proof.
  intros Hs. apply supported_range in Hs. split.
  - apply udivisible_panics_zero. lia.
  - intros Hnz. eexists. split; [apply nonzero_computes; assumption |].
    cbn [udivisibleData.m udivisibleData.k udivisibleData.max].
    split; [reflexivity |].
    intros x Hx. now apply nonzero_decides.
Qed.

Lemma udivisible_nonzero_correct_witness :
  supported 8 /\
  (residue 8 4 = 0 -> udivisible 8 4 = Panic "integer divide by zero") /\
  (residue 8 4 <> 0 ->
   exists r,
     udivisible 8 4 = Return r /\
     udivisibleData.max r = (2 ^ 8 - 1) / residue 8 4 /\
     forall x, 0 <= x < 2 ^ 8 ->
       (x mod residue 8 4 = 0 <->
        RotateRight 8 ((x * udivisibleData.m r) mod 2 ^ 8)
          (udivisibleData.k r)
        <= udivisibleData.max r)).
Proof.
  split; [unfold supported; lia |].
  apply (udivisible_nonzero_correct 8 4). unfold supported; lia.
Defined.

(** X4: the constants [umagic] returns are in range: the shift satisfies
    [2 <= s <= n] and the multiplier [1 <= m < 2^n], so it fits in [n]
    bits. *)
Theorem umagic_result_range (n c : Z) :
  supported n -> umagicOK n c = true ->
  exists r,
    umagic n c = Return r /\
    2 <= umagicData.s r <= n /\
    1 <= umagicData.m r < 2 ^ n.
Proof.
  intros Hs Hok. apply supported_range in Hs.
  eexists. split; [apply umagic_computes; assumption |].
  cbn [umagicData.m umagicData.s].
  split; [apply (umagic_shift_at_least_2 n c Hs Hok) |].
  pose proof (umagic_multiplier_strict n c Hs Hok) as HM. cbv zeta in HM.
  assert (Hn2 : 2 ^ (n + 1) = 2 * 2 ^ n).
  { rewrite Z.pow_add_r, Z.pow_1_r by lia. ring. }
  lia.
Qed.

Lemma umagic_result_range_witness :
  supported 8 /\ umagicOK 8 3 = true /\
  exists r,
    umagic 8 3 = Return r /\
    2 <= umagicData.s r <= 8 /\
    1 <= umagicData.m r < 2 ^ 8.
Proof.
  split; [unfold supported; lia |].
  split; [vm_compute; reflexivity |].
  apply (umagic_result_range 8 3);
    [unfold supported; lia | vm_compute; reflexivity].
Defined.

(** X5: the constants [smagic] returns for [0 < c < 2^n] are in range: the
    shift satisfies [1 <= s <= n - 1], and [s <= n - 2] when [c] lies in the
    n-bit signed range; the multiplier satisfies [2^(n-1) < m < 2^n]. *)
Theorem smagic_result_range (n c : Z) :
  supported n -> smagicOK n c = true -> 0 < c < 2 ^ n ->
  exists r,
    smagic n c = Return r /\
    1 <= smagicData.s r <= n - 1 /\
    (c < 2 ^ (n - 1) -> smagicData.s r <= n - 2) /\
    2 ^ (n - 1) < smagicData.m r < 2 ^ n.
Proof.
  intros Hs Hok Hc. apply supported_range in Hs.
  eexists. split; [apply smagic_computes; assumption |].
  cbn [smagicData.m smagicData.s].
  split; [apply (smagic_shift_at_least_1 n c Hs Hok Hc) |].
  split; [apply (smagic_shift_signed_range n c Hs Hok Hc) |].
  apply (smagic_multiplier_strict n c Hs Hok Hc).
Qed.

Lemma smagic_result_range_witness :
  supported 8 /\ smagicOK 8 3 = true /\ 0 < 3 < 2 ^ 8 /\
  exists r,
    smagic 8 3 = Return r /\
    1 <= smagicData.s r <= 8 - 1 /\
    (3 < 2 ^ (8 - 1) -> smagicData.s r <= 8 - 2) /\
    2 ^ (8 - 1) < smagicData.m r < 2 ^ 8.
Proof.
  split; [unfold supported; lia |].
  split; [vm_compute; reflexivity |]. split; [lia |].
  apply (smagic_result_range 8 3);
    [unfold supported; lia | vm_compute; reflexivity | lia].
Defined.

Lemma applicability_agree_nonneg (n c : Z) :
  0 <= n <= 64 -> 0 <= c < 2 ^ n -> smagicOK n c = umagicOK n c.
Proof.
  intros Hn Hc. pose proof (pow_width_le n Hn) as Hw.
  unfold smagicOK, umagicOK. cbv zeta.
  rewrite auxint_to_uint64_residue by assumption.
  unfold residue. rewrite Z.mod_small by assumption.
  destruct (Z.ltb_spec c 0); [lia |].
  destruct (Z.eq_dec c 0) as [-> | Hnz]; [reflexivity |].
  unfold U64.sub. rewrite Z.mod_small by lia. reflexivity.
Qed.

Lemma odd_at_least_3 (a : Z) :
  0 < a -> Z.odd a = true -> a <> 1 -> 3 <= a.
Proof.
  intros Ha Hodd H1. destruct (Z.eq_dec a 2) as [-> | H2]; [discriminate | lia].
Qed.

(** X6: the constants [udivisible] returns for an accepted constant are in
    range: [0 <= k <= n - 2], the odd part of the divisor is at least 3,
    [1 <= m < 2^n], and [max] is the largest multiplier of [d] that stays
    within [n] bits, at least 1. *)
Theorem udivisible_result_range (n c : Z) :
  supported n -> udivisibleOK n c = true ->
  exists r,
    udivisible n c = Return r /\
    0 <= udivisibleData.k r <= n - 2 /\
    3 <= residue n c / 2 ^ udivisibleData.k r /\
    1 <= udivisibleData.m r < 2 ^ n /\
    1 <= udivisibleData.max r /\
    udivisibleData.max r * residue n c <= 2 ^ n - 1
      < (udivisibleData.max r + 1) * residue n c.
Proof.
  intros Hs Hok. apply supported_range in Hs.
  destruct (umagic_divisor_shape n c Hs Hok) as [_ Hnp].
  destruct (udivisible_divisor_shape n c Hs Hok)
    as (Hd & Hk & Hsplit & Hodd & Hpos).
  pose proof (udivisible_inverse_odd n c Hs Hok) as Hmodd.
  cbv zeta in Hmodd.
  eexists. split; [apply udivisible_computes; assumption |].
  cbn [udivisibleData.m udivisibleData.k udivisibleData.max].
  set (d := residue n c) in *. set (k := bits.TrailingZeros64 d) in *.
  set (d0 := d / 2 ^ k) in *.
  assert (H2k : 0 < 2 ^ k) by (apply Z.pow_pos_nonneg; lia).
  assert (H2n : 2 ^ n = 2 * 2 ^ (n - 1)).
  { replace n with (1 + (n - 1)) at 1 by lia. now rewrite Z.pow_add_r by lia. }
  assert (Hd0 : 3 <= d0).
  { apply odd_at_least_3; try assumption. intros H1. apply Hnp.
    exists k. split; [lia |]. rewrite Hsplit, H1. ring. }
  assert (Hk2 : k <= n - 2).
  { assert (k < n - 1); [| lia]. apply pow2_lt_exponent; [lia |]. nia. }
  split; [lia |]. split; [assumption |].
  split.
  - set (m5 := Nat.iter 5 (newton_step d0) d0) in *.
    assert (Hr : 0 <= Z.land m5 (2 ^ n - 1) < 2 ^ n).
    { replace (2 ^ n - 1) with (Z.ones n) by (rewrite Z.ones_equiv; lia).
      rewrite Z.land_ones by lia. apply Z.mod_pos_bound. lia. }
    destruct (Z.eq_dec (Z.land m5 (2 ^ n - 1)) 0) as [Hz | Hnz]; [| lia].
    rewrite Hz in Hmodd. discriminate.
  - split.
    + apply Z.div_le_lower_bound; lia.
    + pose proof (Z.mul_div_le (2 ^ n - 1) d ltac:(lia)).
      pose proof (Z.mul_succ_div_gt (2 ^ n - 1) d ltac:(lia)). lia.
Qed.

Lemma udivisible_result_range_witness :
  supported 8 /\ udivisibleOK 8 6 = true /\
  exists r,
    udivisible 8 6 = Return r /\
    0 <= udivisibleData.k r <= 8 - 2 /\
    3 <= residue 8 6 / 2 ^ udivisibleData.k r /\
    1 <= udivisibleData.m r < 2 ^ 8 /\
    1 <= udivisibleData.max r /\
    udivisibleData.max r * residue 8 6 <= 2 ^ 8 - 1
      < (udivisibleData.max r + 1) * residue 8 6.
Proof.
  split; [unfold supported; lia |].
  split; [vm_compute; reflexivity |].
  apply (udivisible_result_range 8 6);
    [unfold supported; lia | vm_compute; reflexivity].
Defined.

Lemma even_with_pow2 (n m : Z) : 0 < n -> Z.even (m + 2 ^ n) = Z.even m.
Proof.
  intros Hn. rewrite Z.even_add, Z.even_pow by lia.
  change (Z.even 2) with true. now destruct (Z.even m).
Qed.

(** X7: when the multiplier is even ("Case 1"), the quotient is a multiply
    by the halved (n+1)-bit multiplier, which fits in [n] bits, the high half
    of the product, and a shift by [s - 1]. *)
Theorem umagic_even_multiplier (n c : Z) :
  supported n -> umagicOK n c = true ->
  exists r,
    umagic n c = Return r /\
    (umagicData.m r + 2 ^ n) / 2 < 2 ^ n /\
    0 <= umagicData.s r - 1 /\
    (Z.even (umagicData.m r) = true ->
     forall x, 0 <= x < 2 ^ n ->
       x / residue n c
       = (x * ((umagicData.m r + 2 ^ n) / 2)) / 2 ^ n
         / 2 ^ (umagicData.s r - 1)).
Proof.
  intros Hs Hok. apply supported_range in Hs.
  pose proof (umagic_multiplier_strict n c Hs Hok) as HM.
  pose proof (umagic_shift_at_least_2 n c Hs Hok) as Hs2.
  cbv zeta in HM, Hs2.
  eexists. split; [apply umagic_computes; assumption |].
  cbn [umagicData.m umagicData.s].
  set (d := residue n c) in *. set (s := Z.log2 d + 1) in *.
  set (M := (2 ^ (n + s) + d - 1) / d) in *.
  replace (M - 2 ^ n + 2 ^ n) with M by ring.
  assert (Hn2 : 2 ^ (n + 1) = 2 * 2 ^ n).
  { rewrite Z.pow_add_r, Z.pow_1_r by lia. ring. }
  split; [apply Z.div_lt_upper_bound; lia |].
  split; [lia |].
  intros Hev x Hx.
  apply (umagic_case_even_multiplier n c Hs Hok x Hx).
  fold d. fold s. fold M.
  rewrite <- Hev.
  replace M with (M - 2 ^ n + 2 ^ n) at 1 by ring.
  apply even_with_pow2. lia.
Qed.

Lemma umagic_even_multiplier_witness :
  supported 8 /\ umagicOK 8 3 = true /\
  exists r,
    umagic 8 3 = Return r /\
    (umagicData.m r + 2 ^ 8) / 2 < 2 ^ 8 /\
    0 <= umagicData.s r - 1 /\
    (Z.even (umagicData.m r) = true ->
     forall x, 0 <= x < 2 ^ 8 ->
       x / residue 8 3
       = (x * ((umagicData.m r + 2 ^ 8) / 2)) / 2 ^ 8
         / 2 ^ (umagicData.s r - 1)).
Proof.
  split; [unfold supported; lia |].
  split; [vm_compute; reflexivity |].
  apply (umagic_even_multiplier 8 3);
    [unfold supported; lia | vm_compute; reflexivity].
Defined.

(** X8: when the divisor is even ("Case 2"), the quotient is a shift of the
    operand by one, a multiply by the (n+1)-bit multiplier halved upwards,
    which fits in [n] bits, the high half of the product, and a shift by
    [s - 2], where [s >= 3]. *)
Theorem umagic_even_divisor (n c : Z) :
  supported n -> umagicOK n c = true -> Z.even (residue n c) = true ->
  exists r,
    umagic n c = Return r /\
    (umagicData.m r + 2 ^ n + 1) / 2 < 2 ^ n /\
    0 <= umagicData.s r - 2 /\
    forall x, 0 <= x < 2 ^ n ->
      x / residue n c
      = ((x / 2) * ((umagicData.m r + 2 ^ n + 1) / 2)) / 2 ^ n
        / 2 ^ (umagicData.s r - 2).
Proof.
  intros Hs Hok Hev. apply supported_range in Hs.
  pose proof (umagic_multiplier_strict n c Hs Hok) as HM.
  cbv zeta in HM.
  assert (H0 : 0 <= 0 < 2 ^ n) by (split; [lia | apply Z.pow_pos_nonneg; lia]).
  destruct (umagic_case_even_divisor n c Hs Hok 0 H0 Hev) as (Hs3 & HM' & _).
  cbv zeta in Hs3, HM'.
  eexists. split; [apply umagic_computes; assumption |].
  cbn [umagicData.m umagicData.s].
  set (d := residue n c) in *. set (s := Z.log2 d + 1) in *.
  set (M := (2 ^ (n + s) + d - 1) / d) in *.
  replace (M - 2 ^ n + 2 ^ n + 1) with (M + 1) by ring.
  assert (Hn2 : 2 ^ (n + 1) = 2 * 2 ^ n).
  { rewrite Z.pow_add_r, Z.pow_1_r by lia. ring. }
  split; [assumption |].
  split; [lia |].
  intros x Hx.
  apply (umagic_case_even_divisor n c Hs Hok x Hx Hev).
Qed.

Lemma umagic_even_divisor_witness :
  supported 8 /\ umagicOK 8 6 = true /\ Z.even (residue 8 6) = true /\
  exists r,
    umagic 8 6 = Return r /\
    (umagicData.m r + 2 ^ 8 + 1) / 2 < 2 ^ 8 /\
    0 <= umagicData.s r - 2 /\
    forall x, 0 <= x < 2 ^ 8 ->
      x / residue 8 6
      = ((x / 2) * ((umagicData.m r + 2 ^ 8 + 1) / 2)) / 2 ^ 8
        / 2 ^ (umagicData.s r - 2).
Proof.
  split; [unfold supported; lia |].
  split; [vm_compute; reflexivity |].
  split; [vm_compute; reflexivity |].
  apply (umagic_even_divisor 8 6);
    [unfold supported; lia | vm_compute; reflexivity | vm_compute; reflexivity].
Defined.

(** X9: in every case ("Case 3") the quotient is the high half of the
    product with the n-bit [m], averaged with the operand, and shifted by
    [s - 1]. *)
Theorem umagic_average (n c : Z) :
  supported n -> umagicOK n c = true ->
  exists r,
    umagic n c = Return r /\
    forall x, 0 <= x < 2 ^ n ->
      x / residue n c
      = (x + (x * umagicData.m r) / 2 ^ n) / 2
        / 2 ^ (umagicData.s r - 1).
Proof.
  intros Hs Hok. apply supported_range in Hs.
  eexists. split; [apply umagic_computes; assumption |].
  cbn [umagicData.m umagicData.s].
  intros x Hx. apply (umagic_case_average n c Hs Hok x Hx).
Qed.

Lemma umagic_average_witness :
  supported 8 /\ umagicOK 8 3 = true /\
  exists r,
    umagic 8 3 = Return r /\
    forall x, 0 <= x < 2 ^ 8 ->
      x / residue 8 3
      = (x + (x * umagicData.m r) / 2 ^ 8) / 2
        / 2 ^ (umagicData.s r - 1).
Proof.
  split; [unfold supported; lia |].
  split; [vm_compute; reflexivity |].
  apply (umagic_average 8 3);
    [unfold supported; lia | vm_compute; reflexivity].
Defined.

(** X10: the correction "+1 if x < 0" is the subtraction of [x >> (n-1)]:
    for [0 < c < 2^n] accepted by [smagicOK],
    [trunc (x / c) = ((x * m) >> (n + s)) - (x >> (n - 1))] on the n-bit
    signed range. *)
Theorem smagic_sign_subtract (n c : Z) :
  supported n -> smagicOK n c = true -> 0 < c < 2 ^ n ->
  exists r,
    smagic n c = Return r /\
    forall x, - 2 ^ (n - 1) <= x < 2 ^ (n - 1) ->
      Z.quot x c
      = Z.shiftr (x * smagicData.m r) (n + smagicData.s r)
        - Z.shiftr x (n - 1).
Proof.
  intros Hs Hok Hc. apply supported_range in Hs.
  eexists. split; [apply smagic_computes; assumption |].
  cbn [smagicData.m smagicData.s]. intros x Hx.
  rewrite (smagic_divides n c Hs Hok Hc x Hx).
  rewrite <- (sign_shift n x) by lia. ring.
Qed.

Lemma smagic_sign_subtract_witness :
  supported 8 /\ smagicOK 8 3 = true /\ 0 < 3 < 2 ^ 8 /\
  exists r,
    smagic 8 3 = Return r /\
    forall x, - 2 ^ (8 - 1) <= x < 2 ^ (8 - 1) ->
      Z.quot x 3
      = Z.shiftr (x * smagicData.m r) (8 + smagicData.s r)
        - Z.shiftr x (8 - 1).
Proof.
  split; [unfold supported; lia |].
  split; [vm_compute; reflexivity |]. split; [lia |].
  apply (smagic_sign_subtract 8 3);
    [unfold supported; lia | vm_compute; reflexivity | lia].
Defined.

(** X11: with an n-bit signed multiply only ("n == word size"), the
    multiplier is read as the negative value [m - 2^n], within the signed
    range, and the high half of the product is corrected by adding [x]:
    [trunc (x / c) = ((((x * (m - 2^n)) >> n) + x) >> s) - (x >> (n - 1))]. *)
Theorem smagic_signed_multiply_high (n c : Z) :
  supported n -> smagicOK n c = true -> 0 < c < 2 ^ n ->
  exists r,
    smagic n c = Return r /\
    - 2 ^ (n - 1) < smagicData.m r - 2 ^ n < 0 /\
    forall x, - 2 ^ (n - 1) <= x < 2 ^ (n - 1) ->
      Z.quot x c
      = Z.shiftr (Z.shiftr (x * (smagicData.m r - 2 ^ n)) n + x)
          (smagicData.s r)
        - Z.shiftr x (n - 1).
Proof.
  intros Hs Hok Hc. apply supported_range in Hs.
  pose proof (smagic_multiplier_strict n c Hs Hok Hc) as HM. cbv zeta in HM.
  eexists. split; [apply smagic_computes; assumption |].
  cbn [smagicData.m smagicData.s].
  assert (Hn2 : 2 ^ n = 2 * 2 ^ (n - 1)).
  { replace n with (1 + (n - 1)) at 1 by lia. now rewrite Z.pow_add_r by lia. }
  split; [lia |]. intros x Hx.
  rewrite <- (smagic_signed_multiplier n c Hs Hok Hc x).
  rewrite (smagic_divides n c Hs Hok Hc x Hx).
  rewrite <- (sign_shift n x) by lia. ring.
Qed.

Lemma smagic_signed_multiply_high_witness :
  supported 8 /\ smagicOK 8 3 = true /\ 0 < 3 < 2 ^ 8 /\
  exists r,
    smagic 8 3 = Return r /\
    - 2 ^ (8 - 1) < smagicData.m r - 2 ^ 8 < 0 /\
    forall x, - 2 ^ (8 - 1) <= x < 2 ^ (8 - 1) ->
      Z.quot x 3
      = Z.shiftr (Z.shiftr (x * (smagicData.m r - 2 ^ 8)) 8 + x)
          (smagicData.s r)
        - Z.shiftr x (8 - 1).
Proof.
  split; [unfold supported; lia |].
  split; [vm_compute; reflexivity |]. split; [lia |].
  apply (smagic_signed_multiply_high 8 3);
    [unfold supported; lia | vm_compute; reflexivity | lia].
Defined.

(** X12: on an operand that the divisor divides, the rotated product is the
    exact quotient: for a non-zero residue [d] and [x] in [[0, 2^n)] with
    [x mod d = 0], [RotateRight_n ((x * m) mod 2^n, k) = x / d]. *)
Theorem udivisible_exact_quotient (n c : Z) :
  supported n -> residue n c <> 0 ->
  exists r,
    udivisible n c = Return r /\
    forall x, 0 <= x < 2 ^ n -> x mod residue n c = 0 ->
      RotateRight n ((x * udivisibleData.m r) mod 2 ^ n) (udivisibleData.k r)
      = x / residue n c.
Proof.
  intros Hs Hnz. apply supported_range in Hs.
  eexists. split; [apply nonzero_computes; assumption |].
  cbn [udivisibleData.m udivisibleData.k].
  intros x Hx Hmod. now apply nonzero_quotient.
Qed.

Lemma udivisible_exact_quotient_witness :
  supported 8 /\ residue 8 6 <> 0 /\
  exists r,
    udivisible 8 6 = Return r /\
    forall x, 0 <= x < 2 ^ 8 -> x mod residue 8 6 = 0 ->
      RotateRight 8 ((x * udivisibleData.m r) mod 2 ^ 8) (udivisibleData.k r)
      = x / residue 8 6.
Proof.
  split; [unfold supported; lia |].
  split; [vm_compute; discriminate |].
  apply (udivisible_exact_quotient 8 6);
    [unfold supported; lia | vm_compute; discriminate].
Defined.

(** X13: the precision the source notes beside each Newton step: for an odd
    [d0] the guess [d0] is an inverse modulo [2^3], and the results of the
    five steps are inverses modulo [2^6], [2^12], [2^24], [2^48] and
    [2^64]. *)
Theorem newton_step_precision (d0 : Z) :
  Z.odd d0 = true ->
  (d0 * d0) mod 2 ^ 3 = 1 /\
  (Nat.iter 1 (newton_step d0) d0 * d0) mod 2 ^ 6 = 1 /\
  (Nat.iter 2 (newton_step d0) d0 * d0) mod 2 ^ 12 = 1 /\
  (Nat.iter 3 (newton_step d0) d0 * d0) mod 2 ^ 24 = 1 /\
  (Nat.iter 4 (newton_step d0) d0 * d0) mod 2 ^ 48 = 1 /\
  (Nat.iter 5 (newton_step d0) d0 * d0) mod 2 ^ 64 = 1.
Proof.
  intros Hodd.
  pose proof (newton_iter_precision d0 0 Hodd) as H0.
  pose proof (newton_iter_precision d0 1 Hodd) as H1.
  pose proof (newton_iter_precision d0 2 Hodd) as H2.
  pose proof (newton_iter_precision d0 3 Hodd) as H3.
  pose proof (newton_iter_precision d0 4 Hodd) as H4.
  pose proof (newton_iter_precision d0 5 Hodd) as H5.
  repeat split; apply inverse_mod_one; (lia || assumption).
Qed.

Lemma newton_step_precision_witness :
  Z.odd 3 = true /\
  (3 * 3) mod 2 ^ 3 = 1 /\
  (Nat.iter 1 (newton_step 3) 3 * 3) mod 2 ^ 6 = 1 /\
  (Nat.iter 2 (newton_step 3) 3 * 3) mod 2 ^ 12 = 1 /\
  (Nat.iter 3 (newton_step 3) 3 * 3) mod 2 ^ 24 = 1 /\
  (Nat.iter 4 (newton_step 3) 3 * 3) mod 2 ^ 48 = 1 /\
  (Nat.iter 5 (newton_step 3) 3 * 3) mod 2 ^ 64 = 1.
Proof.
  split; [reflexivity |]. apply (newton_step_precision 3). reflexivity.
Defined.

(** X14: the steps beyond the width do not change the result: whenever
    [n <= 3 * 2^j], the inverse [udivisible] returns is what [j] Newton
    steps give after masking (two steps for width 8, three for 16, four for
    32). *)
Theorem udivisible_fewer_steps (n c : Z) (j : nat) :
  supported n -> residue n c <> 0 -> n <= 3 * 2 ^ Z.of_nat j ->
  exists r,
    udivisible n c = Return r /\
    let d0 := residue n c / 2 ^ udivisibleData.k r in
    udivisibleData.m r
    = Z.land (Nat.iter j (newton_step d0) d0) (2 ^ n - 1).
Proof.
  intros Hs Hnz Hj. apply supported_range in Hs.
  destruct (nonzero_divisor_shape n c Hs Hnz) as (_ & _ & _ & Hodd & _).
  eexists. split; [apply nonzero_computes; assumption |].
  cbn [udivisibleData.m udivisibleData.k]. cbv zeta.
  symmetry. apply newton_iter_low_bits; [assumption | lia | assumption].
Qed.

Lemma udivisible_fewer_steps_witness :
  supported 8 /\ residue 8 6 <> 0 /\ 8 <= 3 * 2 ^ Z.of_nat 2 /\
  exists r,
    udivisible 8 6 = Return r /\
    let d0 := residue 8 6 / 2 ^ udivisibleData.k r in
    udivisibleData.m r
    = Z.land (Nat.iter 2 (newton_step d0) d0) (2 ^ 8 - 1).
Proof.
  split; [unfold supported; lia |].
  split; [vm_compute; discriminate |].
  split; [vm_compute; discriminate |].
  apply (udivisible_fewer_steps 8 6 2);
    [unfold supported; lia | vm_compute; discriminate
     | vm_compute; discriminate].
Defined.

(** X15: the inverse [udivisible] returns is the only n-bit value whose
    product with the odd part of the divisor is 1 modulo [2^n]. *)
Theorem udivisible_inverse_unique (n c m' : Z) :
  supported n -> residue n c <> 0 ->
  exists r,
    udivisible n c = Return r /\
    let d0 := residue n c / 2 ^ udivisibleData.k r in
    (0 <= m' < 2 ^ n -> (d0 * m') mod 2 ^ n = 1 -> m' = udivisibleData.m r).
Proof.
  intros Hs Hnz. apply supported_range in Hs.
  pose proof (nonzero_inverse n c Hs Hnz) as Hinv. cbv zeta in Hinv.
  eexists. split; [apply nonzero_computes; assumption |].
  cbn [udivisibleData.m udivisibleData.k]. cbv zeta.
  intros Hm' Hone.
  set (d0 := residue n c / 2 ^ bits.TrailingZeros64 (residue n c)) in *.
  set (m5 := Nat.iter 5 (newton_step d0) d0) in *.
  assert (Hm : (2 ^ n | m' * d0 - 1)).
  { apply mod_one_inverse; [lia |]. now rewrite Z.mul_comm. }
  pose proof (inverse_unique_mod n d0 _ _ Hm Hinv) as Hdiv.
  apply congruent_low_bits in Hdiv; [| lia].
  assert (H2n : 0 < 2 ^ n) by (apply Z.pow_pos_nonneg; lia).
  replace (2 ^ n - 1) with (Z.ones n) in Hdiv
    by (rewrite Z.ones_equiv; lia).
  rewrite (Z.land_ones (Z.land m5 (Z.ones n))) in Hdiv by lia.
  rewrite (Z.land_ones m5), Z.mod_mod in Hdiv by lia.
  rewrite (Z.land_ones m'), (Z.mod_small m') in Hdiv by lia.
  replace (2 ^ n - 1) with (Z.ones n) by (rewrite Z.ones_equiv; lia).
  rewrite Z.land_ones by lia. exact Hdiv.
Qed.

Lemma udivisible_inverse_unique_witness :
  supported 8 /\ residue 8 6 <> 0 /\
  exists r,
    udivisible 8 6 = Return r /\
    let d0 := residue 8 6 / 2 ^ udivisibleData.k r in
    (0 <= 171 < 2 ^ 8 -> (d0 * 171) mod 2 ^ 8 = 1 -> 171 = udivisibleData.m r).
Proof.
  split; [unfold supported; lia |].
  split; [vm_compute; discriminate |].
  apply (udivisible_inverse_unique 8 6 171);
    [unfold supported; lia | vm_compute; discriminate].
Defined.

(** X16: for one divisor [0 < c < 2^n] the signed constants follow from the
    unsigned ones: the signed shift is one less, and the signed multiplier
    is the (n+1)-bit unsigned multiplier [m + 2^n] halved upwards. *)
Theorem smagic_from_umagic (n c : Z) :
  supported n -> smagicOK n c = true -> 0 < c < 2 ^ n ->
  exists ru rs,
    umagic n c = Return ru /\
    smagic n c = Return rs /\
    smagicData.s rs = umagicData.s ru - 1 /\
    smagicData.m rs = (umagicData.m ru + 2 ^ n + 1) / 2.
Proof.
  intros Hs Hok Hc. apply supported_range in Hs.
  assert (Huok : umagicOK n c = true).
  { rewrite <- applicability_agree_nonneg by lia. assumption. }
  assert (Hres : residue n c = c) by (unfold residue; apply Z.mod_small; lia).
  destruct (umagic_excess n c Hs Huok) as (eu & Heu & HMu & _).
  destruct (smagic_excess n c Hs Hok Hc) as (es & Hes & HMs).
  destruct (smagic_shift_bounds n c Hs Hok Hc) as [Hsb _].
  cbv zeta in HMu, Heu. rewrite Hres in HMu, Heu.
  eexists. eexists.
  split; [apply umagic_computes; assumption |].
  split; [apply smagic_computes; assumption |].
  cbn [smagicData.m smagicData.s umagicData.m umagicData.s].
  rewrite Hres. split; [lia |].
  set (s := Z.log2 c) in *.
  set (Mu := (2 ^ (n + (s + 1)) + c - 1) / c) in *.
  set (Ms := (2 ^ (n + s) + c - 1) / c) in *.
  replace (Mu - 2 ^ n + 2 ^ n + 1) with (Mu + 1) by ring.
  apply (half_ceiling (2 ^ (n + s)) c Mu Ms eu es); try lia.
  rewrite HMu. replace (n + (s + 1)) with (1 + (n + s)) by lia.
  rewrite (Z.pow_add_r 2 1) by lia. change (2 ^ 1) with 2. ring.
Qed.

Lemma smagic_from_umagic_witness :
  supported 8 /\ smagicOK 8 3 = true /\ 0 < 3 < 2 ^ 8 /\
  exists ru rs,
    umagic 8 3 = Return ru /\
    smagic 8 3 = Return rs /\
    smagicData.s rs = umagicData.s ru - 1 /\
    smagicData.m rs = (umagicData.m ru + 2 ^ 8 + 1) / 2.
Proof.
  split; [unfold supported; lia |].
  split; [vm_compute; reflexivity |]. split; [lia |].
  apply (smagic_from_umagic 8 3);
    [unfold supported; lia | vm_compute; reflexivity | lia].
Defined.

(** X17: on a constant of the n-bit unsigned range the three checks give the
    same verdict. *)
Theorem applicability_agree (n c : Z) :
  supported n -> 0 <= c < 2 ^ n ->
  smagicOK n c = umagicOK n c /\ udivisibleOK n c = umagicOK n c.
Proof.
  intros Hs Hc. apply supported_range in Hs.
  split; [apply applicability_agree_nonneg; lia | reflexivity].
Qed.

Lemma applicability_agree_witness :
  supported 8 /\ 0 <= 6 < 2 ^ 8 /\
  smagicOK 8 6 = umagicOK 8 6 /\ udivisibleOK 8 6 = umagicOK 8 6.
Proof.
  split; [unfold supported; lia |]. split; [lia |].
  apply (applicability_agree 8 6); [unfold supported; lia | lia].
Defined.


